(** * DataPipeline: the streaming batched CSV ingestion of [challenge.ts]
    and the entry point of [runner.ts].

    The development embeds three pieces of the program:

    - [Json]: [JSON.stringify] on a parsed CSV row and the text that
      [logFailedRows] appends to [failed_rows.log];
    - [Job]: [insertDataWithSummary].  The 'data' and 'end' listeners are
      [async] functions that [await] a knex transaction, and the stream is
      never paused, so one call of [insertDataWithSummary] is a sequence of
      run-to-completion turns of the Node event loop.  Each turn is one
      [Event]; [step] executes the statements of that turn on the variables
      the closures share ([rows], [totalRowCount], the promise).  The order
      of the turns is not fixed by the program: properties of the job are
      stated over every sequence of turns, or over a named one;
    - [Orchestrator]: [processDataDump] and [main], in an error monad with a
      trace of actions, the outcome of every external call being supplied
      by a [World].  An error nobody handles (the 'error' event of a
      stream without a listener for it, the rejected promise of a
      listener that threw) ends the process with status 1, as Node does
      from version 15 on; the README asks for Node 18 or later.

    knex, SQLite, fast-csv and the file system are the environment.  What
    is assumed of them: [db.transaction(cb)] runs [cb] after BEGIN, commits
    when [cb] resolves, rolls back and rejects when [cb] rejects, and
    rejects when BEGIN or COMMIT fails; an insert applies the rows the
    statement was compiled from, all of them or none; the parser emits
    'data' events and then at most one of 'end' and 'error'.  The
    [console.log] lines of the job are left out. *)

From Stdlib Require Import String Ascii DecimalString.
From Stdlib Require Import List Arith PeanoNat Bool Lia.
Import ListNotations.

(** A row as fast-csv hands it to the 'data' listener with [headers: true]:
    an object from header to cell, both strings.  The list holds its
    entries in the order in which [JSON.stringify] enumerates them: the
    order of the headers, except that headers which are array indices
    come first, in ascending order.  Strings are sequences of bytes (the
    UTF-8 encoding of the file). *)
Definition Row : Type := list (string * string).

Definition LF : ascii := "010"%char.
Definition dquote : ascii := "034"%char.
Definition backslash : ascii := "092"%char.

(* ------------------------------------------------------------------ *)
(** ** JSON.stringify on rows, and the failure log text *)

Module Json.

Local Open Scope string_scope.

Definition hex_digit (n : nat) : ascii :=
  match n with
  | 0 => "0" | 1 => "1" | 2 => "2" | 3 => "3" | 4 => "4" | 5 => "5"
  | 6 => "6" | 7 => "7" | 8 => "8" | 9 => "9" | 10 => "a" | 11 => "b"
  | 12 => "c" | 13 => "d" | 14 => "e" | _ => "f"
  end%char.

(** QuoteJSONString, one code unit: the quote and the backslash are
    escaped, control characters below 0x20 get their short escape or
    [\u00xx], everything else is copied. *)
Definition escape_char (c : ascii) : string :=
  let n := nat_of_ascii c in
  if (n =? 34)%nat then String backslash (String dquote "")
  else if (n =? 92)%nat then String backslash (String backslash "")
  else if (n =? 8)%nat then String backslash "b"
  else if (n =? 12)%nat then String backslash "f"
  else if (n =? 10)%nat then String backslash "n"
  else if (n =? 13)%nat then String backslash "r"
  else if (n =? 9)%nat then String backslash "t"
  else if (n <? 32)%nat then
    String backslash
      (String "u" (String "0" (String "0"
         (String (hex_digit (n / 16)) (String (hex_digit (n mod 16)) "")))))
  else String c "".

Fixpoint escape (s : string) : string :=
  match s with
  | EmptyString => ""
  | String c s' => escape_char c ++ escape s'
  end.

Definition quote (s : string) : string :=
  String dquote (escape s ++ String dquote "").

Definition member (kv : string * string) : string :=
  quote (fst kv) ++ ":" ++ quote (snd kv).

(** [Array.prototype.join]. *)
Fixpoint join (sep : string) (l : list string) : string :=
  match l with
  | [] => ""
  | [x] => x
  | x :: l' => x ++ sep ++ join sep l'
  end.

(** [JSON.stringify(row)] for an object whose values are strings. *)
Definition stringify (row : Row) : string :=
  "{" ++ join "," (map member row) ++ "}".

(** The text of [logFailedRows]: [rows.map(row => JSON.stringify(row)).join('\n') + '\n']. *)
Definition logData (rows : list Row) : string :=
  join (String LF "") (map stringify rows).

Definition appended (rows : list Row) : string :=
  logData rows ++ String LF "".

(** Reading a text back line by line: every LF ends a line; a last line
    without LF is kept when it is not empty. *)
Fixpoint lines_from (cur : string) (s : string) : list string :=
  match s with
  | EmptyString => match cur with EmptyString => [] | _ => [cur] end
  | String c s' =>
      if Ascii.eqb c LF then cur :: lines_from "" s'
      else lines_from (cur ++ String c "") s'
  end.

Definition lines (s : string) : list string := lines_from "" s.

(** The text in which every element of [l] is followed by a line feed. *)
Fixpoint each_on_a_line (l : list string) : string :=
  match l with
  | [] => ""
  | x :: l' => x ++ String LF (each_on_a_line l')
  end.

(** The text is made of whole lines: it is empty or its last character
    is a line feed. *)
Fixpoint whole_lines (s : string) : bool :=
  match s with
  | EmptyString => true
  | String c EmptyString => Ascii.eqb c LF
  | String _ s' => whole_lines s'
  end.

Fixpoint has_char (c : ascii) (s : string) : bool :=
  match s with
  | EmptyString => false
  | String d s' => Ascii.eqb c d || has_char c s'
  end.

(** [needle] occurs in [s]. *)
Fixpoint contains (needle s : string) : bool :=
  String.prefix needle s
  || match s with
     | EmptyString => false
     | String _ s' => contains needle s'
     end.

End Json.

(* ------------------------------------------------------------------ *)
(** ** insertDataWithSummary *)

Module Job.

(** How the promise returned by [insertDataWithSummary] is settled:
    [resolve(totalRowCount)] or [reject({ totalRowCount, message })]. *)
Inductive Settlement : Type :=
| Resolved (count : nat)
| Rejected (count : nat) (message : string).

(** The listener whose [await db.transaction(...)] is pending. *)
Inductive Listener : Type := OnData | OnEnd.

(** Where a [db.transaction(async trx => ...)] call stands.
    - [Begin]: called, the callback has not run yet;
    - [Insert sent]: the callback awaits [trx(tableName).insert(rows)];
      [sent] is the content [rows] had when knex compiled the statement;
    - [Commit sent]: the callback returned, knex awaits COMMIT;
    - [Failed]: the transaction promise is rejected (BEGIN, the insert or
      COMMIT failed, knex rolled back), the [catch] block has not run yet;
    - [Finished]: the listener ran to its end. *)
Inductive Phase : Type :=
| Begin
| Insert (sent : list Row)
| Commit (sent : list Row)
| Failed
| Finished.

Record Tx : Type := { listener : Listener; phase : Phase }.

Record State : Type := {
  rows : list Row;                 (* const rows: Array<object> *)
  totalRowCount : nat;             (* let totalRowCount *)
  promise : option Settlement;     (* the returned promise; None: pending *)
  flowing : bool;                  (* the parser has emitted neither 'end' nor 'error' *)
  txs : list Tx;                   (* every db.transaction call, oldest first *)
  table : list Row;                (* durable content of tableName *)
  inserts : list (list Row);       (* every insert the sink was handed, oldest first *)
  failed_rows_log : string;        (* content appended to failed_rows.log *)
  unhandled : nat                  (* listeners that threw out of their catch block *)
}.

Definition init : State :=
  {| rows := []; totalRowCount := 0; promise := None; flowing := true;
     txs := []; table := []; inserts := []; failed_rows_log := ""%string;
     unhandled := 0 |}.

Definition set_rows (v : list Row) (s : State) : State :=
  {| rows := v; totalRowCount := totalRowCount s; promise := promise s;
     flowing := flowing s; txs := txs s; table := table s;
     inserts := inserts s; failed_rows_log := failed_rows_log s;
     unhandled := unhandled s |}.

Definition set_totalRowCount (v : nat) (s : State) : State :=
  {| rows := rows s; totalRowCount := v; promise := promise s;
     flowing := flowing s; txs := txs s; table := table s;
     inserts := inserts s; failed_rows_log := failed_rows_log s;
     unhandled := unhandled s |}.

Definition set_promise (v : option Settlement) (s : State) : State :=
  {| rows := rows s; totalRowCount := totalRowCount s; promise := v;
     flowing := flowing s; txs := txs s; table := table s;
     inserts := inserts s; failed_rows_log := failed_rows_log s;
     unhandled := unhandled s |}.

Definition set_flowing (v : bool) (s : State) : State :=
  {| rows := rows s; totalRowCount := totalRowCount s; promise := promise s;
     flowing := v; txs := txs s; table := table s;
     inserts := inserts s; failed_rows_log := failed_rows_log s;
     unhandled := unhandled s |}.

Definition set_txs (v : list Tx) (s : State) : State :=
  {| rows := rows s; totalRowCount := totalRowCount s; promise := promise s;
     flowing := flowing s; txs := v; table := table s;
     inserts := inserts s; failed_rows_log := failed_rows_log s;
     unhandled := unhandled s |}.

Definition set_table (v : list Row) (s : State) : State :=
  {| rows := rows s; totalRowCount := totalRowCount s; promise := promise s;
     flowing := flowing s; txs := txs s; table := v;
     inserts := inserts s; failed_rows_log := failed_rows_log s;
     unhandled := unhandled s |}.

Definition set_inserts (v : list (list Row)) (s : State) : State :=
  {| rows := rows s; totalRowCount := totalRowCount s; promise := promise s;
     flowing := flowing s; txs := txs s; table := table s;
     inserts := v; failed_rows_log := failed_rows_log s;
     unhandled := unhandled s |}.

Definition set_failed_rows_log (v : string) (s : State) : State :=
  {| rows := rows s; totalRowCount := totalRowCount s; promise := promise s;
     flowing := flowing s; txs := txs s; table := table s;
     inserts := inserts s; failed_rows_log := v;
     unhandled := unhandled s |}.

Definition set_unhandled (v : nat) (s : State) : State :=
  {| rows := rows s; totalRowCount := totalRowCount s; promise := promise s;
     flowing := flowing s; txs := txs s; table := table s;
     inserts := inserts s; failed_rows_log := failed_rows_log s;
     unhandled := v |}.

(** A promise is settled once: later [resolve]/[reject] calls do nothing. *)
Definition settle (v : Settlement) (s : State) : State :=
  match promise s with
  | None => set_promise (Some v) s
  | Some _ => s
  end.

Fixpoint set_phase (t : nat) (p : Phase) (l : list Tx) : list Tx :=
  match l, t with
  | [], _ => []
  | x :: l', 0 => {| listener := listener x; phase := p |} :: l'
  | x :: l', S t' => x :: set_phase t' p l'
  end.

Definition phase_of (t : nat) (s : State) : option Phase :=
  option_map phase (nth_error (txs s) t).

Definition listener_of (t : nat) (s : State) : option Listener :=
  option_map listener (nth_error (txs s) t).

Definition to_phase (t : nat) (p : Phase) (s : State) : State :=
  set_txs (set_phase t p (txs s)) s.

(** [await db.transaction(...)] reached in listener [l]: the call is
    made and the listener is suspended. *)
Definition transaction (l : Listener) (s : State) : State :=
  set_txs (txs s ++ [{| listener := l; phase := Begin |}]) s.

Section Handlers.

Variable tableName : string.
Variable batchSize : nat.

Definition stopped_message : string :=
  ("Stopped processing " ++ tableName ++ " due to an error.")%string.

Definition read_error_message (error : string) : string :=
  ("Error reading CSV file for " ++ tableName ++ ": " ++ error)%string.

(** The 'data' listener up to its [await]. *)
Definition on_data (row : Row) (s : State) : State :=
  let s1 := set_rows (rows s ++ [row]) s in
  if length (rows s1) =? batchSize then transaction OnData s1 else s1.

(** The 'end' listener up to its [await], or to its end when [rows] is empty. *)
Definition on_end (s : State) : State :=
  if 0 <? length (rows s) then transaction OnEnd s
  else settle (Resolved (totalRowCount s)) s.

(** The 'error' listener. *)
Definition on_error (error : string) (s : State) : State :=
  settle (Rejected (totalRowCount s) (read_error_message error)) s.

(** The transaction callback after [await trx(tableName).insert(rows)]:
    [totalRowCount += rows.length], with the length [rows] has now. *)
Definition after_insert (s : State) : State :=
  set_totalRowCount (totalRowCount s + length (rows s)) s.

(** What follows a fulfilled [await db.transaction(...)]. *)
Definition after_transaction (l : Listener) (s : State) : State :=
  match l with
  | OnData => set_rows [] s                         (* rows.length = 0 *)
  | OnEnd => settle (Resolved (totalRowCount s)) s   (* resolve(totalRowCount) *)
  end.

(** [logFailedRows(rows)]: nothing for an empty array, else one
    [fs.appendFileSync] of the text.  [None] when [appendFileSync] throws
    ([append_ok = false]). *)
Definition logFailedRows (append_ok : bool) (failed : list Row) (s : State)
    : option State :=
  match failed with
  | [] => Some s
  | _ :: _ =>
      if append_ok then
        Some (set_failed_rows_log
                (failed_rows_log s ++ Json.appended failed)%string s)
      else None
  end.

(** The [catch] block: [logFailedRows(rows)], then
    [return reject({ totalRowCount, message })].  An exception of
    [logFailedRows] leaves the listener, and [reject] is not reached. *)
Definition on_catch (append_ok : bool) (s : State) : State :=
  match logFailedRows append_ok (rows s) s with
  | Some s1 => settle (Rejected (totalRowCount s1) stopped_message) s1
  | None => set_unhandled (S (unhandled s)) s
  end.

(** One turn of the event loop. *)
Inductive Event : Type :=
| Data (row : Row)                  (* the parser emits 'data' *)
| End                               (* the parser emits 'end' *)
| Error (error : string)            (* the parser emits 'error' *)
| Begun (t : nat) (ok : bool)       (* BEGIN of transaction t answered *)
| Inserted (t : nat) (ok : bool)    (* its insert answered *)
| Committed (t : nat) (ok : bool)   (* its COMMIT answered *)
| Caught (t : nat) (append_ok : bool). (* its rejection reaches the catch block *)

(** [None]: the event cannot happen in this state. *)
Definition step (s : State) (e : Event) : option State :=
  match e with
  | Data row => if flowing s then Some (on_data row s) else None
  | End => if flowing s then Some (on_end (set_flowing false s)) else None
  | Error error =>
      if flowing s then Some (on_error error (set_flowing false s)) else None
  | Begun t ok =>
      match phase_of t s with
      | Some Begin =>
          if ok then
            Some (to_phase t (Insert (rows s))
                    (set_inserts (inserts s ++ [rows s]) s))
          else Some (to_phase t Failed s)
      | _ => None
      end
  | Inserted t ok =>
      match phase_of t s with
      | Some (Insert sent) =>
          if ok then Some (to_phase t (Commit sent) (after_insert s))
          else Some (to_phase t Failed s)
      | _ => None
      end
  | Committed t ok =>
      match phase_of t s, listener_of t s with
      | Some (Commit sent), Some l =>
          if ok then
            Some (after_transaction l
                    (to_phase t Finished (set_table (table s ++ sent) s)))
          else Some (to_phase t Failed s)
      | _, _ => None
      end
  | Caught t append_ok =>
      match phase_of t s with
      | Some Failed => Some (on_catch append_ok (to_phase t Finished s))
      | _ => None
      end
  end.

Fixpoint run (s : State) (evs : list Event) : option State :=
  match evs with
  | [] => Some s
  | e :: evs' =>
      match step s e with
      | Some s' => run s' evs'
      | None => None
      end
  end.

(** The states one call of [insertDataWithSummary] can be in. *)
Definition reachable (s : State) : Prop :=
  exists evs, run init evs = Some s.

(** A transaction is outstanding: its [await] has not returned. *)
Definition pending (p : Phase) : bool :=
  match p with
  | Finished => false
  | _ => true
  end.

Definition outstanding (s : State) : bool :=
  existsb (fun x => pending (phase x)) (txs s).

(** The statement of transaction [t] is in flight with the rows [sent]. *)
Definition in_flight (s : State) (t : nat) (sent : list Row) : Prop :=
  phase_of t s = Some (Insert sent) \/ phase_of t s = Some (Commit sent).

(** The table is made of whole inserts the sink was handed. *)
Definition whole_inserts (s : State) : Prop :=
  exists applied, table s = concat applied /\ incl applied (inserts s).

(** What every turn keeps true: the rows of a statement in flight were
    handed to the sink, and the table is made of whole inserts. *)
Definition sound (s : State) : Prop :=
  (forall t sent, in_flight s t sent -> In sent (inserts s))
  /\ whole_inserts s.

End Handlers.

(** *** Serial delivery

    The turns of a job in which the parser emits nothing while a
    transaction is outstanding and every transaction succeeds. *)

Section Serial.

Variable batchSize : nat.

(** The turns of a transaction that succeeds. *)
Definition commits (t : nat) : list Event :=
  [Begun t true; Inserted t true; Committed t true].

(** [t] transactions were made before, [buffered] rows are in [rows]. *)
Fixpoint serial (t buffered : nat) (records : list Row) : list Event :=
  match records with
  | [] => End :: (if 0 <? buffered then commits t else [])
  | r :: records' =>
      if S buffered =? batchSize
      then Data r :: commits t ++ serial (S t) 0 records'
      else Data r :: serial t (S buffered) records'
  end.

(** The batches of [records] when [buffer] is already in [rows]: cut
    whenever [batchSize] rows are there, and what is left at the end. *)
Fixpoint batches (buffer records : list Row) : list (list Row) :=
  match records with
  | [] => match buffer with [] => [] | _ :: _ => [buffer] end
  | r :: records' =>
      if length (buffer ++ [r]) =? batchSize
      then (buffer ++ [r]) :: batches [] records'
      else batches (buffer ++ [r]) records'
  end.

End Serial.

End Job.

(* ------------------------------------------------------------------ *)
(** ** processDataDump and main *)

Module Orchestrator.

Local Open Scope string_scope.

(** A value thrown, or a promise rejection awaited: the object
    [insertDataWithSummary] rejects with, or any other error. *)
Inductive Thrown : Type :=
| JobError (totalRowCount : nat) (message : string)
| OtherError (message : string).

(** What the program does that can be seen from outside, in order. *)
Inductive Action : Type :=
| Call (name : string)                     (* an external call was started *)
| InsertData (filePath tableName : string) (* insertDataWithSummary was called *)
| Log (line : string)                      (* console.log *)
| LogError (line : string) (error : Thrown)  (* console.error *)
| UncaughtError (error : string)    (* 'error' of a stream nobody listens to *)
| UnhandledRejection (tableName : string). (* a listener of the job threw *)

Inductive Outcome (A : Type) : Type :=
| Returns (a : A)
| Throws (e : Thrown)
| Hangs              (* waiting at an [await] that is never resumed *)
| Exits (code : nat). (* the process ends with this status *)

Arguments Returns {A} a.
Arguments Throws {A} e.
Arguments Hangs {A}.
Arguments Exits {A} code.

Definition M (A : Type) : Type := list Action -> Outcome A * list Action.

Definition ret {A} (a : A) : M A := fun tr => (Returns a, tr).

Definition bind {A B} (m : M A) (k : A -> M B) : M B :=
  fun tr =>
    match m tr with
    | (Returns a, tr') => k a tr'
    | (Throws e, tr') => (Throws e, tr')
    | (Hangs, tr') => (Hangs, tr')
    | (Exits code, tr') => (Exits code, tr')
    end.

Notation "x <- m ;; k" := (bind m (fun x => k))
  (at level 61, m at next level, right associativity).
Notation "m ;; k" := (bind m (fun _ => k))
  (at level 61, right associativity).

Definition emit (a : Action) : M unit := fun tr => (Returns tt, (tr ++ [a])%list).

Definition log (line : string) : M unit := emit (Log line).

(** [try { body } catch (error) { handler }]. *)
Definition try_catch {A} (body : M A) (handler : Thrown -> M A) : M A :=
  fun tr =>
    match body tr with
    | (Throws e, tr') => handler e tr'
    | r => r
    end.

(** [try { body } finally { fin }]: [fin] runs when [body] returns or
    throws, and what [fin] throws replaces the outcome of [body]. *)
Definition try_finally {A} (body : M A) (fin : M unit) : M A :=
  fun tr =>
    match body tr with
    | (Returns a, tr') =>
        match fin tr' with
        | (Returns _, tr'') => (Returns a, tr'')
        | (Throws e, tr'') => (Throws e, tr'')
        | (Hangs, tr'') => (Hangs, tr'')
        | (Exits code, tr'') => (Exits code, tr'')
        end
    | (Throws e, tr') =>
        match fin tr' with
        | (Returns _, tr'') => (Throws e, tr'')
        | (Throws e', tr'') => (Throws e', tr'')
        | (Hangs, tr'') => (Hangs, tr'')
        | (Exits code, tr'') => (Exits code, tr'')
        end
    | r => r
    end.

(** An external call ([fs.promises.mkdir], axios, knex, ...).  The world
    says whether it fails: [Some e] is the error it throws. *)
Definition call (name : string) (failure : option string) : M unit :=
  emit (Call name) ;;
  fun tr =>
    match failure with
    | None => (Returns tt, tr)
    | Some e => (Throws (OtherError e), tr)
    end.

(** An error nobody handles: Node prints it and ends the process with
    status 1.  Nothing of the program runs after it: whoever was waiting
    at an [await] stays there, no [catch] and no [finally] block is
    entered. *)
Definition dies {A} (a : Action) : M A := fun tr => (Hangs, (tr ++ [a])%list).

Definition fatal (a : Action) : bool :=
  match a with
  | UncaughtError _ | UnhandledRejection _ => true
  | _ => false
  end.

(** A stream that has no 'error' listener: [Some e] is the 'error' it
    emits. *)
Definition unheard (error : option string) : M unit :=
  fun tr =>
    match error with
    | None => (Returns tt, tr)
    | Some e => dies (UncaughtError e) tr
    end.

(** A function that pipes streams and returns a promise which only the
    last stream settles: its 'error' rejects the promise ([failure]), an
    'error' of a stream before it ([stream]) has no listener. *)
Definition piped (name : string) (stream failure : option string) : M unit :=
  emit (Call name) ;;
  unheard stream ;;
  fun tr =>
    match failure with
    | None => (Returns tt, tr)
    | Some e => (Throws (OtherError e), tr)
    end.

Record World : Type := {
  mkdir_tmp : option string;
  mkdir_extracted : option string;
  mkdir_out : option string;
  download : option string;         (* axios.get throws, or 'error' of the writer *)
  extract : option string;          (* 'error' of tar.extract *)
  foreign_keys_off : option string;
  synchronous_off : option string;
  create_customers : option string;
  create_organizations : option string;
  customers_events : list Job.Event;       (* event loop turns of the first job *)
  organizations_events : list Job.Event;   (* and of the second *)
  foreign_keys_on : option string;
  synchronous_full : option string;
  destroy : option string;
  download_stream : option string;    (* 'error' of response.data *)
  extract_stream : option string;     (* 'error' of the file stream or of gunzip *)
  customers_file : option string;     (* 'error' of fs.createReadStream, first job *)
  organizations_file : option string  (* and second job *)
}.

Definition number (n : nat) : string := NilEmpty.string_of_uint (Nat.to_uint n).

(** How the promise of [insertDataWithSummary(filePath, tableName, db)]
    ends up, with the default [batchSize = 100]: the promise of the job's
    last state.  Events the job cannot perform leave it pending. *)
Definition settlement (tableName : string) (events : list Job.Event)
    : option Job.Settlement :=
  match Job.run tableName 100 Job.init events with
  | Some s => Job.promise s
  | None => None
  end.

(** A listener of the job threw out of its [catch] block, which happens
    when [logFailedRows] throws: the promise of that [async] listener is
    rejected, and nobody handles it. *)
Definition listener_threw (tableName : string) (events : list Job.Event)
    : bool :=
  match Job.run tableName 100 Job.init events with
  | Some s => (0 <? Job.unhandled s)%nat
  | None => false
  end.

(** [await insertDataWithSummary(filePath, tableName, db)].  The file
    stream is piped into the parser and only the parser has an 'error'
    listener: when the file cannot be read ([file] is [Some e]) the
    parser gets nothing and the error goes unheard.  All the turns of the
    job are taken before the function that awaits goes on. *)
Definition insertDataWithSummary (filePath tableName : string)
    (file : option string) (events : list Job.Event) : M nat :=
  emit (InsertData filePath tableName) ;;
  unheard file ;;
  fun tr =>
    if listener_threw tableName events
    then dies (UnhandledRejection tableName) tr
    else
      match settlement tableName events with
      | Some (Job.Resolved n) => (Returns n, tr)
      | Some (Job.Rejected n message) => (Throws (JobError n message), tr)
      | None => (Hangs, tr)
      end.

(** [downloadFile] (lines 57-66): [response.data] is piped into the
    writer; 'finish' of the writer resolves and its 'error' rejects. *)
Definition downloadFile (w : World) : M unit :=
  piped "downloadFile" (download_stream w) (download w).

(** [extractTar] (lines 71-79): the file stream is piped into gunzip
    and gunzip into [tar.extract], whose 'finish' resolves and whose
    'error' rejects. *)
Definition extractTar (w : World) : M unit :=
  piped "extractTar" (extract_stream w) (extract w).

Definition createTables (w : World) : M unit :=
  call "createTable customers" (create_customers w) ;;
  call "createTable organizations" (create_organizations w).

(** The [catch (error)] block after a job: [totalRowCount] is taken from
    the error when it has one, else the variable keeps its initial 0. *)
Definition rows_before_stopping (error : Thrown) : nat :=
  match error with
  | JobError totalRowCount _ => totalRowCount
  | OtherError _ => 0
  end.

Definition tmpFolder : string := "tmp/".
Definition extractedFolder : string := tmpFolder ++ "extracted/".

Definition processDataDump (w : World) : M unit :=
  call "mkdir tmp/" (mkdir_tmp w) ;;
  call "mkdir tmp/extracted/" (mkdir_extracted w) ;;
  call "mkdir out" (mkdir_out w) ;;
  downloadFile w ;;
  extractTar w ;;
  emit (Call "setupDatabase") ;;
  try_finally
    (call "PRAGMA foreign_keys = OFF" (foreign_keys_off w) ;;
     call "PRAGMA synchronous = OFF" (synchronous_off w) ;;
     createTables w ;;
     customerRowsInserted <-
       try_catch
         (log "Starting insertion for customers.csv..." ;;
          n <- insertDataWithSummary
                 (extractedFolder ++ "/dump/customers.csv") "customers"
                 (customers_file w) (customers_events w) ;;
          log ("Finished inserting customers.csv. Total inserted: " ++ number n) ;;
          ret n)
         (fun error =>
            let n := rows_before_stopping error in
            log ("Inserted " ++ number n
                 ++ " rows into customers table before stopping.") ;;
            ret n) ;;
     organizationRowsInserted <-
       try_catch
         (log "Starting insertion for organizations.csv..." ;;
          n <- insertDataWithSummary
                 (extractedFolder ++ "/dump/organizations.csv") "organizations"
                 (organizations_file w) (organizations_events w) ;;
          log ("Finished inserting organizations.csv. Total inserted: " ++ number n) ;;
          ret n)
         (fun error =>
            let n := rows_before_stopping error in
            log ("Inserted " ++ number n
                 ++ " rows into organizations table before stopping.") ;;
            ret n) ;;
     log "Data insertion process completed." ;;
     log ("Total rows inserted into customers table: "
          ++ number customerRowsInserted) ;;
     log ("Total rows inserted into organizations table: "
          ++ number organizationRowsInserted))
    (call "PRAGMA foreign_keys = ON" (foreign_keys_on w) ;;
     call "PRAGMA synchronous = FULL" (synchronous_full w) ;;
     call "db.destroy" (destroy w) ;;
     log "Database connection closed.").

(** [process.exit(code)]. *)
Definition exit (code : nat) : M unit := fun tr => (Exits code, tr).

(** runner.ts: the function [main] (lines 7-16) and its call (line 18),
    whose promise nobody awaits.  When an error went unhandled while
    [main] was waiting, the process has ended with status 1 and the
    [catch] and [finally] blocks of [main] are never entered. *)
Definition main (w : World) : M unit :=
  fun tr =>
    match
      try_finally
        (try_catch
           (processDataDump w ;;
            log "✅ Done!")
           (fun error => emit (LogError "Error during data processing:" error)))
        (exit 0) tr
    with
    | (Hangs, tr') =>
        if existsb fatal tr' then (Exits 1, tr') else (Hangs, tr')
    | r => r
    end.

(** [process.exit] is not reached by [m]. *)
Definition stays {A} (m : M A) : Prop :=
  forall tr code, fst (m tr) <> Exits code.

(** The row count a settled job reports. *)
Definition reported (o : Job.Settlement) : nat :=
  match o with
  | Job.Resolved n => n
  | Job.Rejected n _ => n
  end.

(** Every call before the first job succeeds, and no stream of the
    download or of the extraction fails. *)
Definition setup_succeeds (w : World) : Prop :=
  mkdir_tmp w = None /\ mkdir_extracted w = None /\ mkdir_out w = None /\
  download w = None /\ extract w = None /\
  foreign_keys_off w = None /\ synchronous_off w = None /\
  create_customers w = None /\ create_organizations w = None /\
  download_stream w = None /\ extract_stream w = None.

(** What [await insertDataWithSummary(...)] comes back with, when it
    does: the settlement of the job, unless the file stream failed or a
    listener threw. *)
Definition reports (file : option string) (tableName : string)
    (events : list Job.Event) : option Job.Settlement :=
  match file with
  | Some _ => None
  | None =>
      if listener_threw tableName events then None
      else settlement tableName events
  end.

(** The error of the first call that fails. *)
Fixpoint first_failure (calls : list (option string)) : option string :=
  match calls with
  | [] => None
  | Some e :: _ => Some e
  | None :: calls' => first_failure calls'
  end.

(** The calls before the [try] block, those of the [try] block before
    the jobs, and those of the [finally] block, in order. *)
Definition before_try (w : World) : list (option string) :=
  [mkdir_tmp w; mkdir_extracted w; mkdir_out w; download w; extract w].

Definition before_jobs (w : World) : list (option string) :=
  [foreign_keys_off w; synchronous_off w; create_customers w;
   create_organizations w].

Definition in_finally (w : World) : list (option string) :=
  [foreign_keys_on w; synchronous_full w; destroy w].

(** The error [processDataDump] ends with, by the calls that fail: a
    failure before the [try] block leaves at once; inside it the
    [finally] block runs, and what that throws replaces the error of the
    [try] block. *)
Definition raised (w : World) : option string :=
  match first_failure (before_try w) with
  | Some e => Some e
  | None =>
      match first_failure (in_finally w) with
      | Some e => Some e
      | None => first_failure (before_jobs w)
      end
  end.

(** Every call of the [finally] block succeeds. *)
Definition teardown_succeeds (w : World) : Prop :=
  foreign_keys_on w = None /\ synchronous_full w = None /\ destroy w = None.

(** The tables [insertDataWithSummary] was called for, in order. *)
Fixpoint attempted (tr : list Action) : list string :=
  match tr with
  | [] => []
  | InsertData _ tableName :: tr' => tableName :: attempted tr'
  | _ :: tr' => attempted tr'
  end.

End Orchestrator.

(* ------------------------------------------------------------------ *)
(** ** Rows and worlds used in the examples *)

Module Examples.

Import Job Orchestrator.

Definition record (id : string) : Row := [("id"%string, id)].

Definition r1 : Row := record "1".
Definition r2 : Row := record "2".
Definition r3 : Row := record "3".

(** The line [JSON.stringify] makes of [record id]. *)
Definition line (id : string) : string :=
  String "{"
    (String dquote ("id" ++ String dquote (String ":"
       (String dquote (id ++ String dquote "}")))))%string.

(** batchSize 1, two records delivered in one burst, no failure. *)
Definition burst_of_two : list Event :=
  [Data r1; Data r2; Begun 0 true; Inserted 0 true; Committed 0 true; End].

(** batchSize 2, three records delivered one transaction at a time; the
    insert of the first batch is refused; the 'end' listener then starts
    a transaction of its own. *)
Definition first_batch_refused : list Event :=
  [Data r1; Data r2; Begun 0 true; Inserted 0 false; Caught 0 true;
   Data r3; End; Begun 1 true].

(** batchSize 1, two records: the insert of the first is refused while
    the second is already in [rows]. *)
Definition refused_with_newcomer : list Event :=
  [Data r1; Begun 0 true; Data r2; Inserted 0 false; Caught 0 true].

(** batchSize 100, one record, committed at 'end': the insert is refused
    and failed_rows.log cannot be written. *)
Definition log_unwritable : list Event :=
  [Data r1; End; Begun 0 true; Inserted 0 false; Caught 0 false].

(** batchSize 2: three records, then a decode error, all delivered before
    BEGIN of the first transaction is answered. *)
Definition error_during_commit : list Event :=
  [Data r1; Data r2; Data r3; Error "bad row";
   Begun 0 true; Inserted 0 true; Committed 0 true].

(** 250 records. *)
Definition file_of_250 : list Row := repeat r1 250.

(** 120 records, then a decode error, the commit of the first hundred
    being over before the next record is delivered. *)
Definition error_after_120 : list Event :=
  map Data (repeat r1 100) ++ commits 0 ++ map Data (repeat r1 20)
  ++ [Error "truncated"].

(** A second run against the same database file: the tables exist. *)
Definition tables_exist : World :=
  {| mkdir_tmp := None; mkdir_extracted := None; mkdir_out := None;
     download := None; extract := None;
     foreign_keys_off := None; synchronous_off := None;
     create_customers := Some "table `customers` already exists"%string;
     create_organizations := None;
     customers_events := [End]; organizations_events := [End];
     foreign_keys_on := None; synchronous_full := None; destroy := None;
     download_stream := None; extract_stream := None;
     customers_file := None; organizations_file := None |}.

(** The customers insert is refused, the organizations file has one row. *)
Definition customers_refused : World :=
  {| mkdir_tmp := None; mkdir_extracted := None; mkdir_out := None;
     download := None; extract := None;
     foreign_keys_off := None; synchronous_off := None;
     create_customers := None; create_organizations := None;
     customers_events :=
       [Data r1; End; Begun 0 true; Inserted 0 false; Caught 0 true];
     organizations_events :=
       [Data r2; End; Begun 0 true; Inserted 0 true; Committed 0 true];
     foreign_keys_on := None; synchronous_full := None; destroy := None;
     download_stream := None; extract_stream := None;
     customers_file := None; organizations_file := None |}.

(** As [customers_refused] reads, but failed_rows.log cannot be written. *)
Definition log_unwritable_world : World :=
  {| mkdir_tmp := None; mkdir_extracted := None; mkdir_out := None;
     download := None; extract := None;
     foreign_keys_off := None; synchronous_off := None;
     create_customers := None; create_organizations := None;
     customers_events := log_unwritable;
     organizations_events :=
       [Data r2; End; Begun 0 true; Inserted 0 true; Committed 0 true];
     foreign_keys_on := None; synchronous_full := None; destroy := None;
     download_stream := None; extract_stream := None;
     customers_file := None; organizations_file := None |}.

(** The archive holds no [dump/customers.csv]: the file stream of the
    first job emits 'error'. *)
Definition csv_missing : World :=
  {| mkdir_tmp := None; mkdir_extracted := None; mkdir_out := None;
     download := None; extract := None;
     foreign_keys_off := None; synchronous_off := None;
     create_customers := None; create_organizations := None;
     customers_events := []; organizations_events := [End];
     foreign_keys_on := None; synchronous_full := None; destroy := None;
     download_stream := None; extract_stream := None;
     customers_file :=
       Some "ENOENT: no such file or directory, open 'tmp/extracted//dump/customers.csv'"%string;
     organizations_file := None |}.

(** The downloaded file is not a gzip archive: gunzip emits 'error'. *)
Definition not_an_archive : World :=
  {| mkdir_tmp := None; mkdir_extracted := None; mkdir_out := None;
     download := None; extract := None;
     foreign_keys_off := None; synchronous_off := None;
     create_customers := None; create_organizations := None;
     customers_events := [End]; organizations_events := [End];
     foreign_keys_on := None; synchronous_full := None; destroy := None;
     download_stream := None;
     extract_stream := Some "incorrect header check"%string;
     customers_file := None; organizations_file := None |}.

End Examples.

(* ------------------------------------------------------------------ *)
(** ** Counting transactions, and what the invariants of a job say *)

Module JobCounts.

Import Job.

(** The transaction was started by the 'data' listener. *)
Definition by_data (x : Tx) : bool :=
  match listener x with
  | OnData => true
  | OnEnd => false
  end.

(** ... and its [await] has not returned. *)
Definition awaiting_data (x : Tx) : bool := by_data x && pending (phase x).

(** A transaction of the 'end' listener whose [await] has not returned. *)
Definition awaiting_end (x : Tx) : bool := negb (by_data x) && pending (phase x).

(** The transactions the 'data' listener has started so far. *)
Definition data_started (s : State) : nat := length (filter by_data (txs s)).

(** Those of them that are outstanding. *)
Definition data_pending (s : State) : nat :=
  length (filter awaiting_data (txs s)).

(** The transactions the 'end' listener has started so far. *)
Definition end_started (s : State) : nat :=
  length (filter (fun x => negb (by_data x)) (txs s)).

(** Those of them that are outstanding. *)
Definition end_pending (s : State) : nat :=
  length (filter awaiting_end (txs s)).

(** The turn reports no failure: no 'error' of the parser, no refused
    BEGIN, insert or COMMIT, and so no [catch] block. *)
Definition failure_free (e : Event) : bool :=
  match e with
  | Data _ | End => true
  | Error _ => false
  | Begun _ ok | Inserted _ ok | Committed _ ok => ok
  | Caught _ _ => false
  end.

(** At most one transaction of the 'data' listener is outstanding, and
    while one is, [rows] holds [batchSize] rows or more. *)
Definition one_at_a_time (batchSize : nat) (s : State) : Prop :=
  data_pending s <= 1 /\ (data_pending s = 1 -> batchSize <= length (rows s)).

(** [rows] is full and no transaction of the 'data' listener is
    outstanding: the state a caught failure of such a transaction leaves. *)
Definition stuck (batchSize : nat) (s : State) : Prop :=
  batchSize <= length (rows s) /\ data_pending s = 0.

(** From a stuck state on, [rows] is never cleared and the 'data' listener
    starts no transaction. *)
Definition only_grows (batchSize : nat) (a b : State) : Prop :=
  stuck batchSize b /\ (exists more, rows b = rows a ++ more)
  /\ data_started b = data_started a.

(** While the parser flows the 'end' listener has started nothing; it
    starts at most one transaction; the promise is resolved only after
    the parser has ended, with a count [totalRowCount] has reached; with
    [batchSize = 0] the 'data' listener starts nothing. *)
Definition closing (batchSize : nat) (s : State) : Prop :=
  (flowing s = true -> end_started s = 0)
  /\ end_started s <= 1
  /\ (forall n, promise s = Some (Resolved n) ->
                flowing s = false /\ n <= totalRowCount s)
  /\ (batchSize = 0 -> data_started s = 0).

(** A pending promise has a reason: the parser still flows, a
    transaction of the 'end' listener is outstanding, or a listener threw. *)
Definition accounted (s : State) : Prop :=
  promise s = None ->
  flowing s = true \/ 0 < end_pending s \/ 0 < unhandled s.

(** The rows the parser delivered in the turns [evs], in order. *)
Fixpoint delivered (evs : list Event) : list Row :=
  match evs with
  | [] => []
  | Data row :: evs' => row :: delivered evs'
  | _ :: evs' => delivered evs'
  end.

(** [b] is a run of consecutive rows of [l], in the order of [l]. *)
Definition run_of (b l : list Row) : Prop :=
  exists before after, l = before ++ b ++ after.

(** With [h] the rows delivered so far: [rows] is the end of [h], and
    every insert the sink was handed is a run of consecutive rows of [h]. *)
Definition in_file_order (h : list Row) (s : State) : Prop :=
  (exists before, h = before ++ rows s)
  /\ Forall (fun b => run_of b h) (inserts s).

(** The text [logFailedRows] has appended for the batches [logged],
    oldest first. *)
Fixpoint logged_text (logged : list (list Row)) : string :=
  match logged with
  | [] => EmptyString
  | b :: l => (Json.appended b ++ logged_text l)%string
  end.

(** The turns of whole batches served one after the other, each
    committed before the next row is delivered; [t] transactions were made
    before. *)
Fixpoint served (t : nat) (batches : list (list Row)) : list Event :=
  match batches with
  | [] => []
  | b :: batches' => map Data b ++ commits t ++ served (S t) batches'
  end.

(** The turns of a transaction whose insert is refused, the rows being
    logged. *)
Definition refusal (t : nat) : list Event :=
  [Begun t true; Inserted t false; Caught t true].

End JobCounts.

(* ------------------------------------------------------------------ *)
(** ** Reading an escaped character back (used to tell log lines apart) *)

Module Reading.

Local Open Scope string_scope.

(** The value of a lower-case hexadecimal digit. *)
Definition unhex (c : ascii) : option nat :=
  let n := nat_of_ascii c in
  if ((48 <=? n) && (n <=? 57))%nat then Some (n - 48)
  else if ((97 <=? n) && (n <=? 102))%nat then Some (n - 87)
  else None.

(** Reading back what [Json.escape_char] wrote at the head of a text: the
    character and the text that follows.  A bare quote ends the string. *)
Definition read_char (s : string) : option (ascii * string) :=
  match s with
  | EmptyString => None
  | String c rest =>
      if Ascii.eqb c dquote then None
      else if Ascii.eqb c backslash then
        match rest with
        | EmptyString => None
        | String d rest' =>
            if Ascii.eqb d dquote then Some (dquote, rest')
            else if Ascii.eqb d backslash then Some (backslash, rest')
            else if Ascii.eqb d "b" then Some ("008"%char, rest')
            else if Ascii.eqb d "f" then Some ("012"%char, rest')
            else if Ascii.eqb d "n" then Some ("010"%char, rest')
            else if Ascii.eqb d "r" then Some ("013"%char, rest')
            else if Ascii.eqb d "t" then Some ("009"%char, rest')
            else if Ascii.eqb d "u" then
              match rest' with
              | String _ (String _ (String x (String y rest''))) =>
                  match unhex x, unhex y with
                  | Some h, Some l => Some (ascii_of_nat (16 * h + l), rest'')
                  | _, _ => None
                  end
              | _ => None
              end
            else None
        end
      else Some (c, rest)
  end.

End Reading.

(* ------------------------------------------------------------------ *)
(** ** What processDataDump lets through *)

Module OrchestratorDefs.
Import Orchestrator.

(** What [m] throws never is a job's rejection. *)
Definition keeps_job_errors {A} (m : M A) : Prop :=
  forall tr e, fst (m tr) = Throws e -> exists message, e = OtherError message.

(** Every call before the [try] block succeeds. *)
Definition preparation_succeeds (w : World) : Prop :=
  mkdir_tmp w = None /\ mkdir_extracted w = None /\ mkdir_out w = None /\
  download w = None /\ extract w = None.

End OrchestratorDefs.

(* ------------------------------------------------------------------ *)
(** ** States and worlds the general facts are tried on *)

Module Inputs.

Import Job Orchestrator Examples.

(** The state of the customers job after the turns [evs], from [s]. *)
Definition continue (batchSize : nat) (s : State) (evs : list Event) : State :=
  match run "customers" batchSize s evs with
  | Some s' => s'
  | None => s
  end.

Definition after (batchSize : nat) (evs : list Event) : State :=
  continue batchSize init evs.

(** batchSize 1: the insert of the first record is refused and logged. *)
Definition refused_once : list Event :=
  [Data r1; Begun 0 true; Inserted 0 false; Caught 0 true].

(** batchSize 1: the first record is committed. *)
Definition committed_once : list Event :=
  [Data r1; Begun 0 true; Inserted 0 true; Committed 0 true].

(** Restoring foreign_keys fails after two empty files were read. *)
Definition pragma_fails : World :=
  {| mkdir_tmp := None; mkdir_extracted := None; mkdir_out := None;
     download := None; extract := None;
     foreign_keys_off := None; synchronous_off := None;
     create_customers := None; create_organizations := None;
     customers_events := [End]; organizations_events := [End];
     foreign_keys_on := Some "database is locked"%string;
     synchronous_full := None; destroy := None;
     download_stream := None; extract_stream := None;
     customers_file := None; organizations_file := None |}.

(** The tables exist, and restoring foreign_keys fails as well. *)
Definition tables_locked : World :=
  {| mkdir_tmp := None; mkdir_extracted := None; mkdir_out := None;
     download := None; extract := None;
     foreign_keys_off := None; synchronous_off := None;
     create_customers := Some "table `customers` already exists"%string;
     create_organizations := None;
     customers_events := [End]; organizations_events := [End];
     foreign_keys_on := Some "database is locked"%string;
     synchronous_full := None; destroy := None;
     download_stream := None; extract_stream := None;
     customers_file := None; organizations_file := None |}.

End Inputs.

(* ------------------------------------------------------------------ *)
(** ** Facts about the failure log text *)

Module JsonFacts.

Import Json.
Local Open Scope string_scope.

Lemma append_assoc (a b c : string) : (a ++ b) ++ c = a ++ (b ++ c).
Proof.
  induction a as [|x a IH]; simpl; [reflexivity|].
  now rewrite IH.
Qed.

Lemma append_empty_r (a : string) : a ++ "" = a.
Proof.
  induction a as [|x a IH]; simpl; [reflexivity|].
  now rewrite IH.
Qed.

Lemma has_char_app (c : ascii) (a b : string) :
  has_char c (a ++ b) = has_char c a || has_char c b.
Proof.
  induction a as [|x a IH]; simpl; [reflexivity|].
  now rewrite IH, orb_assoc.
Qed.

(** No escape sequence contains a line feed: the line feed itself is
    written backslash, n. *)
Lemma escape_char_one_line (c : ascii) : has_char LF (escape_char c) = false.
Proof.
  destruct c as [[] [] [] [] [] [] [] []]; reflexivity.
Qed.

Lemma escape_one_line (s : string) : has_char LF (escape s) = false.
Proof.
  induction s as [|c s IH]; simpl; [reflexivity|].
  now rewrite has_char_app, escape_char_one_line, IH.
Qed.

Lemma quote_one_line (s : string) : has_char LF (quote s) = false.
Proof.
  unfold quote; simpl.
  now rewrite has_char_app, escape_one_line.
Qed.

Lemma member_one_line (kv : string * string) : has_char LF (member kv) = false.
Proof.
  unfold member.
  now rewrite !has_char_app, !quote_one_line.
Qed.

Lemma join_one_line (sep : string) (l : list string) :
  has_char LF sep = false ->
  Forall (fun x => has_char LF x = false) l ->
  has_char LF (join sep l) = false.
Proof.
  intros Hsep Hl.
  induction Hl as [|x l Hx Hl IH]; [reflexivity|].
  destruct l as [|y l]; [exact Hx|].
  change (join sep (x :: y :: l)) with (x ++ sep ++ join sep (y :: l)).
  now rewrite !has_char_app, Hx, Hsep, IH.
Qed.

Lemma stringify_one_line (row : Row) : has_char LF (stringify row) = false.
Proof.
  unfold stringify.
  rewrite !has_char_app, join_one_line; [reflexivity|reflexivity|].
  apply Forall_forall; intros x Hx.
  apply in_map_iff in Hx as [kv [<- _]].
  apply member_one_line.
Qed.

(** A text without line feed, then a line feed: one line. *)
Lemma lines_from_line (x cur rest : string) :
  has_char LF x = false ->
  lines_from cur (x ++ String LF rest) = (cur ++ x) :: lines_from "" rest.
Proof.
  revert cur.
  induction x as [|c x IH]; intros cur Hx; cbn -[Ascii.eqb LF].
  - rewrite Ascii.eqb_refl. now rewrite append_empty_r.
  - cbn -[Ascii.eqb LF] in Hx. apply orb_false_iff in Hx as [Hc Hx].
    rewrite Ascii.eqb_sym, Hc, IH by exact Hx.
    now rewrite append_assoc.
Qed.

Lemma lines_join (x : string) (l : list string) :
  Forall (fun y => has_char LF y = false) (x :: l) ->
  lines (join (String LF "") (x :: l) ++ String LF "") = x :: l.
Proof.
  unfold lines.
  revert x.
  induction l as [|y l IH]; intros x Hall.
  - inversion Hall as [|? ? Hx _]; subst.
    simpl join. now rewrite lines_from_line.
  - inversion Hall as [|? ? Hx Hrest]; subst.
    change (join (String LF "") (x :: y :: l))
      with (x ++ String LF "" ++ join (String LF "") (y :: l)).
    rewrite append_assoc.
    change ((String LF "" ++ join (String LF "") (y :: l)) ++ String LF "")
      with (String LF (join (String LF "") (y :: l) ++ String LF "")).
    rewrite lines_from_line by exact Hx.
    cbn [append]. f_equal. now apply IH.
Qed.

Lemma lines_appended (r : Row) (rows : list Row) :
  lines (appended (r :: rows)) = map stringify (r :: rows).
Proof.
  unfold appended, logData.
  simpl map. apply lines_join.
  apply Forall_forall; intros x Hx.
  change (stringify r :: map stringify rows) with (map stringify (r :: rows)) in Hx.
  apply in_map_iff in Hx as [row [<- _]].
  apply stringify_one_line.
Qed.

Lemma appended_each_on_a_line (r : Row) (rows : list Row) :
  appended (r :: rows) = each_on_a_line (map stringify (r :: rows)).
Proof.
  unfold appended, logData.
  revert r. induction rows as [|r' rows IH]; intros r.
  - reflexivity.
  - change (join (String LF "") (map stringify (r :: r' :: rows)))
      with (stringify r ++ String LF ""
            ++ join (String LF "") (map stringify (r' :: rows))).
    rewrite !append_assoc. cbn [map each_on_a_line append].
    f_equal. f_equal. apply IH.
Qed.

Lemma lines_each_on_a_line (l : list string) (later : string) :
  Forall (fun x => has_char LF x = false) l ->
  lines (each_on_a_line l ++ later) = (l ++ lines later)%list.
Proof.
  unfold lines.
  induction 1 as [|x l Hx Hall IH]; [reflexivity|].
  cbn [each_on_a_line]. rewrite append_assoc. cbn [append].
  rewrite lines_from_line by exact Hx. cbn [append app].
  now rewrite IH.
Qed.

(** After whole lines, what follows starts a line of its own. *)
Lemma lines_from_whole (earlier later cur : string) :
  earlier <> "" -> whole_lines earlier = true ->
  lines_from cur (earlier ++ later)
  = (lines_from cur earlier ++ lines later)%list.
Proof.
  unfold lines. revert cur.
  induction earlier as [|c earlier IH]; intros cur Hsome Hwhole;
    [congruence|].
  destruct earlier as [|d earlier].
  - cbn -[Ascii.eqb LF] in *. now rewrite Hwhole.
  - assert (Hrest : whole_lines (String d earlier) = true) by exact Hwhole.
    change (String c (String d earlier) ++ later)
      with (String c (String d earlier ++ later)).
    cbn -[Ascii.eqb LF append]. cbn -[Ascii.eqb LF append] in IH.
    destruct (Ascii.eqb c LF).
    + cbn [app]. now rewrite IH.
    + now rewrite IH.
Qed.

Lemma lines_after_whole (earlier later : string) :
  whole_lines earlier = true ->
  lines (earlier ++ later) = (lines earlier ++ lines later)%list.
Proof.
  intros Hwhole. destruct earlier as [|c earlier]; [reflexivity|].
  now apply lines_from_whole.
Qed.

End JsonFacts.

(* ------------------------------------------------------------------ *)
(** ** Facts about insertDataWithSummary *)

Module JobFacts.

Import Job.

Section Turns.

Variable tableName : string.
Variable batchSize : nat.

Local Abbreviation step := (Job.step tableName batchSize).
Local Abbreviation run := (Job.run tableName batchSize).
Local Abbreviation on_data := (Job.on_data batchSize).
Local Abbreviation on_catch := (Job.on_catch tableName).

Lemma run_app (s : State) (evs evs' : list Event) :
  run s (evs ++ evs') =
  match run s evs with
  | Some s' => run s' evs'
  | None => None
  end.
Proof.
  revert s.
  induction evs as [|e evs IH]; intros s; simpl; [reflexivity|].
  destruct (step s e) as [s'|]; [apply IH|reflexivity].
Qed.

(** The 'data' listener is never held back: whatever transactions are
    outstanding, a row the parser emits is pushed on [rows]. *)
Lemma data_is_always_pushed (s : State) (row : Row) :
  flowing s = true ->
  exists s', step s (Data row) = Some s' /\ rows s' = rows s ++ [row]
             /\ totalRowCount s' = totalRowCount s /\ table s' = table s.
Proof.
  intros Hflow. exists (on_data row s).
  simpl. rewrite Hflow. split; [reflexivity|].
  unfold Job.on_data.
  destruct (length _ =? batchSize); simpl; auto.
Qed.

Lemma settle_totalRowCount (v : Settlement) (s : State) :
  totalRowCount (settle v s) = totalRowCount s.
Proof. unfold settle. now destruct (promise s). Qed.

Lemma settle_table (v : Settlement) (s : State) :
  table (settle v s) = table s.
Proof. unfold settle. now destruct (promise s). Qed.

Lemma settle_inserts (v : Settlement) (s : State) :
  inserts (settle v s) = inserts s.
Proof. unfold settle. now destruct (promise s). Qed.

(** [totalRowCount] never decreases. *)
Lemma step_totalRowCount (s s' : State) (e : Event) :
  step s e = Some s' -> totalRowCount s <= totalRowCount s'.
Proof.
  destruct e as [row| |error|t ok|t ok|t ok|t ok]; simpl.
  - destruct (flowing s); [|discriminate]. intros [= <-].
    unfold Job.on_data. destruct (length _ =? batchSize); simpl; lia.
  - destruct (flowing s); [|discriminate]. intros [= <-].
    unfold on_end. destruct (0 <? _); simpl; [lia|].
    rewrite settle_totalRowCount. simpl. lia.
  - destruct (flowing s); [|discriminate]. intros [= <-].
    unfold on_error. rewrite settle_totalRowCount. simpl. lia.
  - destruct (phase_of t s) as [[]|]; try discriminate.
    destruct ok; intros [= <-]; simpl; lia.
  - destruct (phase_of t s) as [[]|]; try discriminate.
    destruct ok; intros [= <-]; simpl; lia.
  - destruct (phase_of t s) as [[]|]; try discriminate.
    destruct (listener_of t s) as [l|]; try discriminate.
    destruct ok; intros [= <-]; [|simpl; lia].
    destruct l; simpl; [lia|].
    rewrite settle_totalRowCount. simpl. lia.
  - destruct (phase_of t s) as [[]|]; try discriminate.
    intros [= <-]. unfold Job.on_catch, logFailedRows. simpl.
    destruct (rows s); [rewrite settle_totalRowCount; simpl; lia|].
    destruct ok; [rewrite settle_totalRowCount|]; simpl; lia.
Qed.

Lemma run_totalRowCount (evs : list Event) (s s' : State) :
  run s evs = Some s' -> totalRowCount s <= totalRowCount s'.
Proof.
  revert s.
  induction evs as [|e evs IH]; intros s; simpl.
  - intros [= <-]. lia.
  - destruct (step s e) as [s1|] eqn:Hstep; [|discriminate].
    intros Hrun. apply step_totalRowCount in Hstep. apply IH in Hrun. lia.
Qed.

(** The 'error' listener starts no transaction, hands nothing to the sink
    and, when the promise is pending, rejects with the count at hand;
    nothing is emitted after it. *)
Lemma error_listener (s : State) (error : string) :
  flowing s = true ->
  exists s',
    step s (Error error) = Some s'
    /\ txs s' = txs s
    /\ inserts s' = inserts s
    /\ table s' = table s
    /\ flowing s' = false
    /\ (promise s = None ->
        promise s'
        = Some (Rejected (totalRowCount s)
                  (read_error_message tableName error))).
Proof.
  intros Hflow. eexists. cbn. rewrite Hflow.
  split; [reflexivity|].
  unfold on_error, settle. cbn.
  destruct (promise s) eqn:Hpromise; cbn; repeat split;
    intros; congruence.
Qed.

(** *** The table holds whole inserts *)

Lemma nth_error_set_phase (l : list Tx) (t t' : nat) (p : Phase) :
  nth_error (set_phase t p l) t' =
  if t' =? t
  then option_map (fun x => {| listener := listener x; phase := p |})
         (nth_error l t')
  else nth_error l t'.
Proof.
  revert t t'.
  induction l as [|x l IH]; intros t t'.
  - destruct t, t'; simpl; try reflexivity. now destruct (t' =? t).
  - destruct t as [|t], t' as [|t']; simpl; try reflexivity.
    apply IH.
Qed.

Lemma phase_of_to_phase (s : State) (t t' : nat) (p : Phase) :
  phase_of t' (to_phase t p s) =
  if t' =? t then option_map (fun _ => p) (phase_of t' s) else phase_of t' s.
Proof.
  unfold phase_of, to_phase. simpl.
  rewrite nth_error_set_phase.
  destruct (t' =? t); [|reflexivity].
  now destruct (nth_error (txs s) t').
Qed.

Lemma phase_of_transaction (s : State) (l : Listener) (t : nat) (p : Phase) :
  phase_of t (transaction l s) = Some p ->
  phase_of t s = Some p \/ p = Begin.
Proof.
  unfold phase_of, transaction. simpl.
  destruct (Nat.lt_ge_cases t (length (txs s))) as [Hlt|Hge].
  - rewrite nth_error_app1 by exact Hlt. now left.
  - rewrite nth_error_app2 by exact Hge.
    destruct (t - length (txs s)) as [|[|k]]; simpl; try discriminate.
    intros [= <-]. now right.
Qed.

Lemma settle_txs (v : Settlement) (s : State) : txs (settle v s) = txs s.
Proof. unfold settle. now destruct (promise s). Qed.

Lemma phase_of_settle (v : Settlement) (s : State) (t : nat) :
  phase_of t (settle v s) = phase_of t s.
Proof. unfold phase_of. now rewrite settle_txs. Qed.

Lemma on_catch_txs (ok : bool) (s : State) : txs (on_catch ok s) = txs s.
Proof.
  unfold Job.on_catch, logFailedRows.
  destruct (rows s); [apply settle_txs|].
  destruct ok; [rewrite settle_txs|]; reflexivity.
Qed.

Lemma on_catch_table (ok : bool) (s : State) : table (on_catch ok s) = table s.
Proof.
  unfold Job.on_catch, logFailedRows.
  destruct (rows s); [apply settle_table|].
  destruct ok; [rewrite settle_table|]; reflexivity.
Qed.

Lemma on_catch_inserts (ok : bool) (s : State) :
  inserts (on_catch ok s) = inserts s.
Proof.
  unfold Job.on_catch, logFailedRows.
  destruct (rows s); [apply settle_inserts|].
  destruct ok; [rewrite settle_inserts|]; reflexivity.
Qed.

(** One turn changes the table only when a COMMIT succeeds, and then by
    all the rows of that transaction's insert. *)
Lemma step_table (s s' : State) (e : Event) :
  step s e = Some s' ->
  table s' = table s \/
  exists t sent, e = Committed t true /\ phase_of t s = Some (Commit sent)
                 /\ table s' = table s ++ sent.
Proof.
  destruct e as [row| |error|t ok|t ok|t ok|t ok]; simpl.
  - destruct (flowing s); [|discriminate]. intros [= <-]. left.
    unfold Job.on_data. now destruct (length _ =? batchSize).
  - destruct (flowing s); [|discriminate]. intros [= <-]. left.
    unfold on_end. destruct (0 <? _); [reflexivity|].
    now rewrite settle_table.
  - destruct (flowing s); [|discriminate]. intros [= <-]. left.
    unfold on_error. now rewrite settle_table.
  - destruct (phase_of t s) as [[]|]; try discriminate.
    destruct ok; intros [= <-]; now left.
  - destruct (phase_of t s) as [[]|]; try discriminate.
    destruct ok; intros [= <-]; now left.
  - destruct (phase_of t s) as [[| |sent| |]|] eqn:Hphase; try discriminate.
    destruct (listener_of t s) as [l|]; try discriminate.
    destruct ok; intros [= <-]; [right|now left].
    exists t, sent. split; [reflexivity|]. split; [exact Hphase|].
    destruct l; simpl; [reflexivity|].
    now rewrite settle_table.
  - destruct (phase_of t s) as [[]|]; try discriminate.
    intros [= <-]. left. now rewrite on_catch_table.
Qed.

(** The rows of a statement in flight were handed to the sink. *)
Lemma step_in_flight (s s' : State) (e : Event) (t : nat) (sent : list Row) :
  step s e = Some s' ->
  in_flight s' t sent ->
  in_flight s t sent \/ In sent (inserts s').
Proof.
  unfold in_flight.
  destruct e as [row| |error|u ok|u ok|u ok|u ok]; simpl.
  - destruct (flowing s); [|discriminate]. intros [= <-].
    unfold Job.on_data.
    destruct (length _ =? batchSize); [|now left].
    intros [H|H]; apply phase_of_transaction in H as [H|H];
      try discriminate; left; [left|right]; exact H.
  - destruct (flowing s); [|discriminate]. intros [= <-].
    unfold on_end.
    destruct (0 <? _).
    + intros [H|H]; apply phase_of_transaction in H as [H|H];
        try discriminate; left; [left|right]; exact H.
    + rewrite phase_of_settle. now left.
  - destruct (flowing s); [|discriminate]. intros [= <-].
    unfold on_error. rewrite phase_of_settle. now left.
  - destruct (phase_of u s) as [[]|] eqn:Hu; try discriminate.
    destruct ok; intros [= <-]; rewrite phase_of_to_phase;
      destruct (t =? u) eqn:Htu.
    + apply Nat.eqb_eq in Htu; subst u.
      unfold phase_of in *. simpl in *. rewrite Hu. simpl.
      intros [[= <-]|[=]]. right. apply in_or_app. right. now left.
    + now left.
    + apply Nat.eqb_eq in Htu; subst u.
      unfold phase_of in *. simpl in *. rewrite Hu. simpl.
      intros [[=]|[=]].
    + now left.
  - destruct (phase_of u s) as [[|sent0| | |]|] eqn:Hu; try discriminate.
    destruct ok; intros [= <-]; rewrite phase_of_to_phase;
      destruct (t =? u) eqn:Htu.
    + apply Nat.eqb_eq in Htu; subst u.
      unfold phase_of in *. simpl in *. rewrite Hu. simpl.
      intros [[=]|[= <-]]. left. now left.
    + now left.
    + apply Nat.eqb_eq in Htu; subst u.
      unfold phase_of in *. simpl in *. rewrite Hu. simpl.
      intros [[=]|[=]].
    + now left.
  - destruct (phase_of u s) as [[| |sent0| |]|] eqn:Hu; try discriminate.
    destruct (listener_of u s) as [l|]; try discriminate.
    destruct ok; intros [= <-].
    + assert (Htx : forall x, phase_of t (after_transaction l x) = phase_of t x).
      { intros x. destruct l; simpl; [reflexivity|apply phase_of_settle]. }
      rewrite Htx, phase_of_to_phase.
      destruct (t =? u) eqn:Htu; [|now left].
      apply Nat.eqb_eq in Htu; subst u.
      unfold phase_of in *. simpl in *. rewrite Hu. simpl.
      intros [[=]|[=]].
    + rewrite phase_of_to_phase.
      destruct (t =? u) eqn:Htu; [|now left].
      apply Nat.eqb_eq in Htu; subst u.
      unfold phase_of in *. simpl in *. rewrite Hu. simpl.
      intros [[=]|[=]].
  - destruct (phase_of u s) as [[]|] eqn:Hu; try discriminate.
    intros [= <-].
    assert (Htx : phase_of t (on_catch ok (to_phase u Finished s))
                  = phase_of t (to_phase u Finished s)).
    { unfold phase_of. now rewrite on_catch_txs. }
    rewrite Htx, phase_of_to_phase.
    destruct (t =? u) eqn:Htu; [|now left].
    apply Nat.eqb_eq in Htu; subst u.
    unfold phase_of in *. simpl in *. rewrite Hu. simpl.
    intros [[=]|[=]].
Qed.

Lemma step_inserts (s s' : State) (e : Event) :
  step s e = Some s' -> incl (inserts s) (inserts s').
Proof.
  destruct e as [row| |error|t ok|t ok|t ok|t ok]; simpl.
  - destruct (flowing s); [|discriminate]. intros [= <-].
    unfold Job.on_data. destruct (length _ =? batchSize); apply incl_refl.
  - destruct (flowing s); [|discriminate]. intros [= <-].
    unfold on_end. destruct (0 <? _); [apply incl_refl|].
    rewrite settle_inserts. apply incl_refl.
  - destruct (flowing s); [|discriminate]. intros [= <-].
    unfold on_error. rewrite settle_inserts. apply incl_refl.
  - destruct (phase_of t s) as [[]|]; try discriminate.
    destruct ok; intros [= <-]; simpl; [|apply incl_refl].
    apply incl_appl, incl_refl.
  - destruct (phase_of t s) as [[]|]; try discriminate.
    destruct ok; intros [= <-]; apply incl_refl.
  - destruct (phase_of t s) as [[]|]; try discriminate.
    destruct (listener_of t s) as [l|]; try discriminate.
    destruct ok; intros [= <-]; [|apply incl_refl].
    destruct l; simpl; [apply incl_refl|].
    rewrite settle_inserts. apply incl_refl.
  - destruct (phase_of t s) as [[]|]; try discriminate.
    intros [= <-]. rewrite on_catch_inserts. apply incl_refl.
Qed.

Lemma step_sound (s s' : State) (e : Event) :
  step s e = Some s' -> sound s -> sound s'.
Proof.
  intros Hstep [Hflight [applied [Htable Hincl]]].
  pose proof (step_inserts _ _ _ Hstep) as Hgrow.
  split.
  - intros t sent Hin.
    destruct (step_in_flight _ _ _ _ _ Hstep Hin) as [Hold|Hnew];
      [apply Hgrow, (Hflight t), Hold|exact Hnew].
  - destruct (step_table _ _ _ Hstep) as [Hsame|[t [sent [_ [Hphase Hadd]]]]].
    + exists applied. split; [congruence|].
      intros b Hb. apply Hgrow, Hincl, Hb.
    + exists (applied ++ [sent]). split.
      * rewrite Hadd, Htable, concat_app. simpl. now rewrite app_nil_r.
      * intros b Hb. apply in_app_or in Hb as [Hb|[<-|[]]].
        -- apply Hgrow, Hincl, Hb.
        -- apply Hgrow, (Hflight t). now right.
Qed.

Lemma run_sound (evs : list Event) (s s' : State) :
  run s evs = Some s' -> sound s -> sound s'.
Proof.
  revert s.
  induction evs as [|e evs IH]; intros s; simpl.
  - now intros [= <-].
  - destruct (step s e) as [s1|] eqn:Hstep; [|discriminate].
    intros Hrun Hs. eapply IH; [exact Hrun|].
    eapply step_sound; eassumption.
Qed.

(** Whatever the order of the turns, the table of a job is a
    concatenation of whole inserts: no insert is applied in part. *)
Lemma table_holds_whole_inserts (s : State) :
  reachable tableName batchSize s -> whole_inserts s.
Proof.
  intros [evs Hrun].
  apply (run_sound _ _ _ Hrun).
  split.
  - intros t sent [H|H]; unfold phase_of in H; simpl in H;
      destruct t; discriminate.
  - exists []. split; [reflexivity|apply incl_refl].
Qed.

End Turns.

Section SerialDelivery.

Variable tableName : string.
Variable batchSize : nat.

Local Abbreviation step := (Job.step tableName batchSize).
Local Abbreviation run := (Job.run tableName batchSize).
Local Abbreviation serial := (Job.serial batchSize).
Local Abbreviation batches := (Job.batches batchSize).

Lemma nth_error_last (l : list Tx) (x : Tx) :
  nth_error (l ++ [x]) (length l) = Some x.
Proof.
  rewrite nth_error_app2 by lia. now rewrite Nat.sub_diag.
Qed.

Lemma set_phase_last (l : list Tx) (x : Tx) (p : Phase) :
  set_phase (length l) p (l ++ [x])
  = l ++ [{| listener := listener x; phase := p |}].
Proof.
  induction l as [|y l IH]; simpl; [reflexivity|].
  now rewrite IH.
Qed.

(** A transaction that succeeds while nothing else happens. *)
Lemma commits_run (s : State) (l : Listener) (evs : list Event) :
  run (transaction l s) (commits (length (txs s)) ++ evs) =
  run (after_transaction l
         (set_txs (txs s ++ [{| listener := l; phase := Finished |}])
            (set_table (table s ++ rows s)
               (set_totalRowCount (totalRowCount s + length (rows s))
                  (set_inserts (inserts s ++ [rows s]) s))))) evs.
Proof.
  destruct s as [rs n pr fl tx tb ins lg un].
  unfold commits, transaction. cbn [app Job.run].
  unfold Job.step at 1, phase_of. cbn [txs set_txs].
  rewrite nth_error_last. cbn [option_map phase].
  unfold Job.step at 1, phase_of, to_phase. cbn [txs set_txs set_inserts].
  rewrite set_phase_last, nth_error_last. cbn [option_map phase listener].
  unfold Job.step at 1, phase_of, listener_of, to_phase, after_insert.
  cbn [txs set_txs set_totalRowCount].
  rewrite set_phase_last, nth_error_last. cbn [option_map phase listener].
  unfold to_phase. cbn [txs set_txs set_table].
  rewrite set_phase_last. cbn [listener].
  reflexivity.
Qed.

(** The outcome of a job served serially, from any state in which the
    parser still flows, the promise is pending and [rows] is not full. *)
Lemma serial_run_from (records : list Row) (s : State) :
  flowing s = true ->
  promise s = None ->
  length (rows s) < batchSize ->
  exists s',
    run s (serial (length (txs s)) (length (rows s)) records) = Some s'
    /\ inserts s' = inserts s ++ batches (rows s) records
    /\ table s' = table s ++ concat (batches (rows s) records)
    /\ promise s'
       = Some (Resolved (totalRowCount s + length (rows s) + length records))
    /\ failed_rows_log s' = failed_rows_log s
    /\ unhandled s' = unhandled s.
Proof.
  revert s.
  induction records as [|r records IH]; intros s Hflow Hpending Hroom.
  - assert (Hend : step s End = Some (on_end (set_flowing false s)))
      by (cbn; now rewrite Hflow).
    cbn [Job.serial Job.batches Job.run]. rewrite Hend. clear Hend.
    unfold on_end. cbn [rows set_flowing].
    destruct (rows s) as [|x rs] eqn:Hrows.
    + cbn [length Nat.ltb Nat.leb Job.run].
      eexists. split; [reflexivity|].
      unfold settle. cbn [promise set_flowing]. rewrite Hpending.
      cbn. rewrite !app_nil_r, !Nat.add_0_r. repeat split; reflexivity.
    + replace (0 <? length (x :: rs)) with true by reflexivity.
      rewrite <- (app_nil_r (commits _)).
      change (txs s) with (txs (set_flowing false s)).
      rewrite commits_run. cbn [Job.run].
      eexists. split; [reflexivity|].
      unfold after_transaction, settle. cbn. rewrite Hpending, Hrows.
      cbn. rewrite !app_nil_r, !Nat.add_0_r. repeat split; reflexivity.
  - assert (Hdata : step s (Data r) = Some (on_data batchSize r s))
      by (cbn; now rewrite Hflow).
    assert (Hlen : length (rows s ++ [r]) = S (length (rows s)))
      by (rewrite length_app; cbn; lia).
    cbn [Job.serial Job.batches]. rewrite Hlen.
    destruct (S (length (rows s)) =? batchSize) eqn:Hfull;
      cbn [Job.run]; rewrite Hdata; clear Hdata;
      unfold on_data; cbn [rows set_rows]; rewrite Hlen, Hfull.
    + change (txs s) with (txs (set_rows (rows s ++ [r]) s)).
      rewrite commits_run.
      set (s2 := after_transaction OnData _).
      destruct (IH s2) as [s' [Hrun [Hins [Htab [Hpro [Hlog Hun]]]]]].
      * exact Hflow.
      * exact Hpending.
      * apply Nat.eqb_eq in Hfull. cbn. lia.
      * exists s'. split.
        -- replace (S (length (txs (set_rows (rows s ++ [r]) s))))
             with (length (txs s2))
             by (cbn; rewrite length_app; cbn; lia).
           exact Hrun.
        -- rewrite Hins, Htab, Hpro, Hlog, Hun. cbn.
           rewrite length_app, <- !app_assoc. cbn.
           repeat split; try reflexivity.
           do 2 f_equal. lia.
    + set (s1 := set_rows (rows s ++ [r]) s).
      destruct (IH s1) as [s' [Hrun [Hins [Htab [Hpro [Hlog Hun]]]]]].
      * exact Hflow.
      * exact Hpending.
      * apply Nat.eqb_neq in Hfull. cbn. rewrite length_app. cbn. lia.
      * exists s'. split.
        -- replace (S (length (rows s))) with (length (rows s1))
             by (cbn; rewrite length_app; cbn; lia).
           exact Hrun.
        -- rewrite Hins, Htab, Hpro, Hlog, Hun. cbn.
           rewrite length_app. cbn.
           repeat split; try reflexivity.
           do 2 f_equal. lia.
Qed.

(** *** The batches of a serial job *)

Lemma batches_concat (records buffer : list Row) :
  concat (batches buffer records) = buffer ++ records.
Proof.
  revert buffer.
  induction records as [|r records IH]; intros buffer; cbn [Job.batches].
  - destruct buffer; cbn; now rewrite ?app_nil_r.
  - destruct (length (buffer ++ [r]) =? batchSize).
    + cbn [concat]. rewrite IH. cbn. now rewrite <- app_assoc.
    + rewrite IH. now rewrite <- app_assoc.
Qed.

Lemma batches_nonempty (records buffer : list Row) :
  0 < length buffer + length records -> batches buffer records <> [].
Proof.
  intros Hpos Hnil.
  pose proof (batches_concat records buffer) as Hcat.
  rewrite Hnil in Hcat. cbn in Hcat.
  apply (f_equal (@length Row)) in Hcat.
  rewrite length_app in Hcat. cbn in Hcat. lia.
Qed.

Lemma batches_count (records buffer : list Row) :
  0 < batchSize ->
  length buffer < batchSize ->
  length (batches buffer records)
  = (length buffer + length records + (batchSize - 1)) / batchSize.
Proof.
  intros Hpos. revert buffer.
  induction records as [|r records IH]; intros buffer Hroom;
    cbn [Job.batches].
  - destruct buffer as [|x buffer]; cbn [length] in *.
    + symmetry. apply Nat.div_small. lia.
    + apply Nat.div_unique with (r := length buffer); lia.
  - rewrite length_app. cbn [length].
    destruct (length buffer + 1 =? batchSize) eqn:Hfull.
    + apply Nat.eqb_eq in Hfull.
      cbn [length]. rewrite IH by (cbn; lia). cbn [length].
      replace (length buffer + S (length records) + (batchSize - 1))
        with (1 * batchSize + (0 + length records + (batchSize - 1))) by lia.
      rewrite Nat.div_add_l by lia. reflexivity.
    + apply Nat.eqb_neq in Hfull.
      rewrite IH by (rewrite length_app; cbn; lia).
      rewrite length_app. cbn [length]. f_equal. lia.
Qed.

Lemma batches_full (records buffer : list Row) :
  length buffer < batchSize ->
  Forall (fun b => length b = batchSize) (removelast (batches buffer records)).
Proof.
  revert buffer.
  induction records as [|r records IH]; intros buffer Hroom;
    cbn [Job.batches].
  - destruct buffer; constructor.
  - destruct (length (buffer ++ [r]) =? batchSize) eqn:Hfull.
    + apply Nat.eqb_eq in Hfull.
      assert (Hrest := IH [] ltac:(cbn; lia)).
      cbn [removelast].
      destruct (batches [] records); [constructor|].
      constructor; [exact Hfull|exact Hrest].
    + apply Nat.eqb_neq in Hfull. apply IH.
      rewrite length_app in *. cbn in *. lia.
Qed.

Lemma batches_last (records buffer : list Row) :
  0 < batchSize ->
  length buffer < batchSize ->
  0 < length buffer + length records ->
  length (last (batches buffer records) [])
  = if (length buffer + length records) mod batchSize =? 0
    then batchSize
    else (length buffer + length records) mod batchSize.
Proof.
  intros Hpos. revert buffer.
  induction records as [|r records IH]; intros buffer Hroom Hsome;
    cbn [Job.batches].
  - destruct buffer as [|x buffer]; [cbn in Hsome; lia|].
    cbn [last length] in *. rewrite Nat.add_0_r.
    rewrite Nat.mod_small by lia. reflexivity.
  - rewrite length_app. cbn [length].
    destruct (length buffer + 1 =? batchSize) eqn:Hfull.
    + apply Nat.eqb_eq in Hfull.
      replace (length buffer + S (length records))
        with (length records + 1 * batchSize) by lia.
      rewrite Nat.Div0.mod_add.
      destruct records as [|r' records].
      * cbn [Job.batches last length]. rewrite Nat.Div0.mod_0_l. cbn.
        rewrite length_app. cbn. lia.
      * pose proof (batches_nonempty (r' :: records) []) as Hne.
        specialize (IH [] ltac:(cbn; lia) ltac:(cbn; lia)).
        cbn [length] in IH. cbn [Nat.add] in IH.
        destruct (batches [] (r' :: records)) as [|b bs] eqn:Hb;
          [exfalso; apply Hne; [cbn; lia|reflexivity]|].
        cbn [last]. exact IH.
    + apply Nat.eqb_neq in Hfull.
      rewrite IH.
      * rewrite length_app. cbn [length].
        now replace (length buffer + 1 + length records)
          with (length buffer + S (length records)) by lia.
      * rewrite length_app. cbn. lia.
      * rewrite length_app. cbn. lia.
Qed.

(** A job served serially whose commits all succeed: it resolves with
    the number of records, the table holds them all, and the sink was
    handed [ceil (N / batchSize)] inserts, all of [batchSize] rows but the
    last, which has the remainder. *)
Theorem serial_job (records : list Row) :
  0 < batchSize ->
  exists s,
    run init (serial 0 0 records) = Some s
    /\ promise s = Some (Resolved (length records))
    /\ table s = records
    /\ concat (inserts s) = records
    /\ length (inserts s) = (length records + (batchSize - 1)) / batchSize
    /\ Forall (fun b => length b = batchSize) (removelast (inserts s))
    /\ (0 < length records ->
        length (last (inserts s) [])
        = if length records mod batchSize =? 0 then batchSize
          else length records mod batchSize)
    /\ failed_rows_log s = EmptyString.
Proof.
  intros Hpos.
  destruct (serial_run_from records init) as
    [s [Hrun [Hins [Htab [Hpro [Hlog _]]]]]]; try reflexivity; [exact Hpos|].
  cbn in Hrun, Hins, Htab, Hpro, Hlog.
  rewrite batches_concat in Htab. cbn in Htab.
  exists s. rewrite Hins.
  split; [exact Hrun|]. split; [exact Hpro|]. split; [exact Htab|].
  split; [apply batches_concat|].
  split; [now rewrite batches_count by (cbn; lia)|].
  split; [apply batches_full; cbn; lia|].
  split; [|exact Hlog].
  intros Hsome. now rewrite batches_last by (cbn; lia).
Qed.

End SerialDelivery.

(** *** logFailedRows *)

(** C9, amended.  Given the rows of a failed batch, [logFailedRows]
    only appends to the log, and what it appends is exactly one line per
    row, in order: [JSON.stringify] of the row, which holds no line feed,
    followed by a line feed, and nothing more; no resource name and no
    timestamp is written.  So in a log made of whole lines the new lines
    come after the lines there were, one per row, and whatever is
    appended later starts a line of its own: successive batches never
    share a line. *)
Theorem C9_one_json_line_per_failed_row (failed : list Row) (s : State) :
  exists text,
    logFailedRows true failed s
    = Some (set_failed_rows_log (failed_rows_log s ++ text)%string s)
    /\ text = Json.each_on_a_line (map Json.stringify failed)
    /\ Forall (fun l => Json.has_char LF l = false) (map Json.stringify failed)
    /\ (forall earlier later,
          Json.whole_lines earlier = true ->
          Json.lines (earlier ++ text ++ later)
          = Json.lines earlier ++ map Json.stringify failed
            ++ Json.lines later).
Proof.
  assert (Hone : Forall (fun l => Json.has_char LF l = false)
                   (map Json.stringify failed)).
  { apply Forall_forall. intros l Hl.
    apply in_map_iff in Hl as [row [<- _]].
    apply JsonFacts.stringify_one_line. }
  exists (Json.each_on_a_line (map Json.stringify failed)).
  split; [|split; [reflexivity|split; [exact Hone|]]].
  - destruct failed as [|r failed].
    + destruct s. cbn. now rewrite JsonFacts.append_empty_r.
    + rewrite <- JsonFacts.appended_each_on_a_line. reflexivity.
  - intros earlier later Hwhole.
    rewrite JsonFacts.lines_after_whole by exact Hwhole.
    now rewrite JsonFacts.lines_each_on_a_line by exact Hone.
Qed.

End JobFacts.

(* ------------------------------------------------------------------ *)
(** ** The job on concrete schedules *)

Module JobRuns.

Import Job Examples.

(** Both sides are closed terms: evaluate them. *)
Ltac evaluate := vm_compute; reflexivity.

(** C1.  The source is not paused while a commit is outstanding.  With
    batchSize 1, the transaction of the first record is outstanding when
    the second record is delivered, and the 'data' listener pushes it on
    [rows]; the count is then raised by 2 for an insert of one row, and
    [rows.length = 0] drops the second record: the job resolves with 2
    while the table holds one row and nothing was logged. *)
Theorem C1_record_enters_rows_during_commit :
  exists s1 s2 s3,
    run "customers" 1 init [Data r1; Begun 0 true] = Some s1
    /\ outstanding s1 = true
    /\ step "customers" 1 s1 (Data r2) = Some s2
    /\ rows s2 = [r1; r2]
    /\ outstanding s2 = true
    /\ run "customers" 1 s2 [Inserted 0 true; Committed 0 true; End] = Some s3
    /\ promise s3 = Some (Resolved 2)
    /\ inserts s3 = [[r1]]
    /\ table s3 = [r1]
    /\ failed_rows_log s3 = EmptyString.
Proof.
  do 3 eexists.
  repeat (split; [evaluate|]). evaluate.
Qed.

(** C2.  After a failed commit the stream is not stopped.  With
    batchSize 2 and three records, served serially, the insert of the
    first batch is refused: the job rejects with count 0 and the two rows
    are logged, but the third record is still pushed, and at 'end' the
    sink is handed all three rows. *)
Theorem C2_later_records_reach_the_sink_after_a_failure :
  exists s,
    run "customers" 2 init first_batch_refused = Some s
    /\ promise s = Some (Rejected 0 (stopped_message "customers"))
    /\ failed_rows_log s
       = (line "1" ++ String LF (line "2" ++ String LF ""))%string
    /\ inserts s = [[r1; r2]; [r1; r2; r3]]
    /\ rows s = [r1; r2; r3].
Proof.
  eexists.
  repeat (split; [evaluate|]). evaluate.
Qed.

(** C3.  [totalRowCount] is raised inside the transaction callback, before
    COMMIT.  With batchSize 1 and one record, the count is 1 while COMMIT
    is outstanding; COMMIT then fails, the table stays empty and the job
    rejects with count 1. *)
Theorem C3_count_is_raised_before_the_commit :
  exists s1 s2,
    run "customers" 1 init [Data r1; Begun 0 true; Inserted 0 true] = Some s1
    /\ phase_of 0 s1 = Some (Commit [r1])
    /\ totalRowCount s1 = 1
    /\ table s1 = []
    /\ run "customers" 1 s1 [Committed 0 false; Caught 0 true] = Some s2
    /\ table s2 = []
    /\ promise s2 = Some (Rejected 1 (stopped_message "customers")).
Proof.
  do 2 eexists.
  repeat (split; [evaluate|]). evaluate.
Qed.

(** C4.  With batchSize 1 and two records delivered in one burst, no
    failure, the sink is handed one insert of two rows, where two inserts
    of one row are due. *)
Theorem C4_burst_is_committed_as_one_oversized_batch :
  exists s,
    run "customers" 1 init burst_of_two = Some s
    /\ inserts s = [[r1; r2]]
    /\ promise s = Some (Resolved 2)
    /\ table s = [r1; r2].
Proof.
  eexists.
  repeat (split; [evaluate|]). evaluate.
Qed.

(** C5.  The failure path is handed [rows] as it stands when the
    rejection is handled.  With batchSize 1, the insert of [r1] is refused
    after [r2] was pushed: the table is untouched, and the log receives
    [r1] and [r2] although the sink was handed [r1] alone. *)
Theorem C5_logged_rows_differ_from_the_failed_insert :
  exists s,
    run "customers" 1 init refused_with_newcomer = Some s
    /\ inserts s = [[r1]]
    /\ table s = []
    /\ failed_rows_log s
       = (line "1" ++ String LF (line "2" ++ String LF ""))%string
    /\ Json.lines (failed_rows_log s) = map Json.stringify [r1; r2].
Proof.
  eexists.
  repeat (split; [evaluate|]). evaluate.
Qed.

(** C7.  With the default batchSize and a file of one record, the
    insert made at 'end' is refused and [appendFileSync] throws: the
    exception leaves the 'end' listener before [reject] is called.  The
    promise of the job is pending and no turn is left that could settle
    it, so [processDataDump], awaiting it, never gets to the
    organizations job; the rejection of the listener is left unhandled. *)
Theorem C7_logger_failure_leaves_the_job_unsettled :
  exists s,
    run "customers" 100 init log_unwritable = Some s
    /\ promise s = None
    /\ unhandled s = 1
    /\ failed_rows_log s = EmptyString
    /\ (forall e, step "customers" 100 s e = None)
    /\ Orchestrator.processDataDump log_unwritable_world []
       = (Orchestrator.Hangs,
          [Orchestrator.Call "mkdir tmp/";
           Orchestrator.Call "mkdir tmp/extracted/";
           Orchestrator.Call "mkdir out";
           Orchestrator.Call "downloadFile";
           Orchestrator.Call "extractTar";
           Orchestrator.Call "setupDatabase";
           Orchestrator.Call "PRAGMA foreign_keys = OFF";
           Orchestrator.Call "PRAGMA synchronous = OFF";
           Orchestrator.Call "createTable customers";
           Orchestrator.Call "createTable organizations";
           Orchestrator.Log "Starting insertion for customers.csv...";
           Orchestrator.InsertData "tmp/extracted//dump/customers.csv"
             "customers";
           Orchestrator.UnhandledRejection "customers"]).
Proof.
  eexists.
  do 4 (split; [evaluate|]).
  split; [|evaluate].
  intros [row| |error|[|[|t]] ok|[|[|t]] ok|[|[|t]] ok|[|[|t]] ok];
    reflexivity.
Qed.

(** C8.  With batchSize 2, three records and then a decode error are
    delivered before BEGIN of the first transaction is answered: the job
    rejects with count 0 and the read error message, and the rows at hand,
    the partial third one included, are then inserted and committed. *)
Theorem C8_partial_buffer_is_committed_after_a_source_error :
  exists s,
    run "customers" 2 init error_during_commit = Some s
    /\ promise s
       = Some (Rejected 0 (read_error_message "customers" "bad row"))
    /\ inserts s = [[r1; r2; r3]]
    /\ table s = [r1; r2; r3].
Proof.
  eexists.
  repeat (split; [evaluate|]). evaluate.
Qed.

(** The spec's scenario A, served serially: 250 records with batchSize
    100 make three inserts of 100, 100 and 50 rows, and the job resolves
    with 250. *)
Example scenario_A_served_serially :
  option_map (fun s => (map (@length Row) (inserts s), promise s))
    (run "customers" 100 init (serial 100 0 0 file_of_250))
  = Some ([100; 100; 50], Some (Resolved 250)).
Proof. evaluate. Qed.

(** The spec's scenario C, with the first commit over before record 101
    is delivered: one insert of 100 rows, then the job rejects with 100. *)
Example scenario_C_served_serially :
  option_map (fun s => (map (@length Row) (inserts s), promise s))
    (run "customers" 100 init error_after_120)
  = Some ([100],
          Some (Rejected 100 (read_error_message "customers" "truncated"))).
Proof. evaluate. Qed.

(** C9, as stated, fails: the line logged for a failed customers row
    holds the row and nothing else, no resource name. *)
Lemma C9_logged_line_has_no_resource_name :
  exists s,
    run "customers" 1 init [Data r1; Begun 0 true; Inserted 0 false;
                            Caught 0 true] = Some s
    /\ Json.lines (failed_rows_log s) = [line "1"]
    /\ Json.contains "customers" (line "1") = false.
Proof.
  eexists.
  repeat (split; [evaluate|]). evaluate.
Qed.

End JobRuns.

(* ------------------------------------------------------------------ *)
(** ** Facts about processDataDump and main *)

Module OrchestratorFacts.

Import Orchestrator Examples.
Local Open Scope string_scope.

Lemma stays_ret {A} (a : A) : stays (ret a).
Proof. intros tr code. discriminate. Qed.

Lemma stays_emit (a : Action) : stays (emit a).
Proof. intros tr code. discriminate. Qed.

Lemma stays_bind {A B} (m : M A) (k : A -> M B) :
  stays m -> (forall a, stays (k a)) -> stays (bind m k).
Proof.
  intros Hm Hk tr code. unfold bind.
  specialize (Hm tr).
  destruct (m tr) as [[a|e| |c] tr']; cbn in *;
    [apply Hk|discriminate|discriminate|].
  now destruct (Hm c).
Qed.

Lemma stays_call (name : string) (failure : option string) :
  stays (call name failure).
Proof.
  apply stays_bind; [apply stays_emit|].
  intros _ tr code. now destruct failure.
Qed.

Lemma stays_unheard (error : option string) : stays (unheard error).
Proof. intros tr code. now destruct error. Qed.

Lemma stays_piped (name : string) (stream failure : option string) :
  stays (piped name stream failure).
Proof.
  apply stays_bind; [apply stays_emit|]. intros _.
  apply stays_bind; [apply stays_unheard|].
  intros _ tr code. now destruct failure.
Qed.

Lemma stays_try_catch {A} (body : M A) (handler : Thrown -> M A) :
  stays body -> (forall e, stays (handler e)) -> stays (try_catch body handler).
Proof.
  intros Hb Hh tr code. unfold try_catch.
  specialize (Hb tr).
  destruct (body tr) as [[a|e| |c] tr']; cbn in *;
    [discriminate|apply Hh|discriminate|].
  now destruct (Hb c).
Qed.

Lemma stays_try_finally {A} (body : M A) (fin : M unit) :
  stays body -> stays fin -> stays (try_finally body fin).
Proof.
  intros Hb Hf tr code. unfold try_finally.
  specialize (Hb tr).
  destruct (body tr) as [[a|e| |c] tr']; cbn in *.
  - specialize (Hf tr').
    destruct (fin tr') as [[[]|e'| |c'] tr'']; cbn in *; try discriminate.
    now destruct (Hf c').
  - specialize (Hf tr').
    destruct (fin tr') as [[[]|e'| |c'] tr'']; cbn in *; try discriminate.
    now destruct (Hf c').
  - discriminate.
  - now destruct (Hb c).
Qed.

Lemma stays_insertDataWithSummary (filePath tableName : string)
    (file : option string) (events : list Job.Event) :
  stays (insertDataWithSummary filePath tableName file events).
Proof.
  apply stays_bind; [apply stays_emit|]. intros _.
  apply stays_bind; [apply stays_unheard|].
  intros _ tr code.
  destruct (listener_threw tableName events); [discriminate|].
  now destruct (settlement tableName events) as [[]|].
Qed.

Create HintDb stays.
#[local] Hint Resolve stays_ret stays_emit stays_call stays_piped
  stays_try_catch stays_try_finally stays_insertDataWithSummary : stays.

Ltac prove_stays :=
  repeat lazymatch goal with
    | |- stays (bind _ _) => apply stays_bind; [|intros ?]
    | |- stays (try_finally _ _) => apply stays_try_finally
    | |- stays (try_catch _ _) => apply stays_try_catch; [|intros ?]
    | |- stays (log _) => apply stays_emit
    | |- stays (createTables _) => unfold createTables
    | |- stays (downloadFile _) => unfold downloadFile
    | |- stays (extractTar _) => unfold extractTar
    | |- stays _ => solve [auto with stays]
    end.

Lemma stays_processDataDump (w : World) : stays (processDataDump w).
Proof. unfold processDataDump. prove_stays. Qed.


(** Evaluating [processDataDump] once the world is known far enough. *)
Ltac dump :=
  unfold main, processDataDump, createTables, downloadFile, extractTar,
    insertDataWithSummary, piped, unheard, dies, call, log,
    try_finally, try_catch, bind, emit, ret, exit in *;
  cbn [mkdir_tmp mkdir_extracted mkdir_out download extract foreign_keys_off
       synchronous_off create_customers create_organizations customers_events
       organizations_events foreign_keys_on synchronous_full destroy
       download_stream extract_stream customers_file organizations_file
       fst snd app attempted rows_before_stopping first_failure raised
       before_try before_jobs in_finally reports] in *.

Ltac not_there :=
  let Hin := fresh "Hin" in
  intros Hin; cbn [In] in Hin;
  repeat (destruct Hin as [Hin|Hin]; [discriminate Hin|]); exact Hin.

Ltac there := cbn [In]; repeat first [left; reflexivity|right].

(** The calls of the [finally] block, one after the other. *)
Ltac finally_calls fk' sy' de :=
  destruct fk' as [?e1|]; [|destruct sy' as [?e2|]; [|destruct de as [?e3|]]].

(** The two jobs, one after the other; [Hends] says that
    [processDataDump] is not left waiting. *)
Ltac jobs Hends cf ce ofile oe :=
  destruct cf as [?e|]; [now destruct Hends|];
  destruct (listener_threw "customers" ce) eqn:?Hthrew1;
    [now destruct Hends|];
  destruct (settlement "customers" ce) as [[?n1|?n1 ?msg1]|] eqn:?Hjob1;
    [| |now destruct Hends];
  (destruct ofile as [?e|]; [now destruct Hends|]);
  (destruct (listener_threw "organizations" oe) eqn:?Hthrew2;
    [now destruct Hends|]);
  (destruct (settlement "organizations" oe) as [[?n2|?n2 ?msg2]|] eqn:?Hjob2;
    [| |now destruct Hends]).

(** [processDataDump] ends with an error exactly when one of its own
    calls fails, and then with the error [raised] says. *)
Lemma processDataDump_ends (w : World) :
  fst (processDataDump w []) <> Hangs ->
  fst (processDataDump w [])
  = match raised w with
    | Some e => Throws (OtherError e)
    | None => Returns tt
    end.
Proof.
  destruct w as [m1 m2 m3 dl ex fk sy cc co ce oe fk' sy' de ds es cf ofile].
  intros Hends.
  destruct m1 as [e|]; [reflexivity|].
  destruct m2 as [e|]; [reflexivity|].
  destruct m3 as [e|]; [reflexivity|].
  destruct ds as [e|]; [now destruct Hends|].
  destruct dl as [e|]; [reflexivity|].
  destruct es as [e|]; [now destruct Hends|].
  destruct ex as [e|]; [reflexivity|].
  destruct fk as [e|]; [finally_calls fk' sy' de; reflexivity|].
  destruct sy as [e|]; [finally_calls fk' sy' de; reflexivity|].
  destruct cc as [e|]; [finally_calls fk' sy' de; reflexivity|].
  destruct co as [e|]; [finally_calls fk' sy' de; reflexivity|].
  dump. jobs Hends cf ce ofile oe; finally_calls fk' sy' de; reflexivity.
Qed.

(** The jobs are attempted in sequence: customers, then organizations. *)
Lemma attempted_in_sequence (w : World) :
  exists k,
    attempted (snd (processDataDump w []))
    = firstn k ["customers"; "organizations"].
Proof.
  destruct w as [m1 m2 m3 dl ex fk sy cc co ce oe fk' sy' de ds es cf ofile].
  destruct m1 as [e|]; [now exists 0|].
  destruct m2 as [e|]; [now exists 0|].
  destruct m3 as [e|]; [now exists 0|].
  destruct ds as [e|]; [now exists 0|].
  destruct dl as [e|]; [now exists 0|].
  destruct es as [e|]; [now exists 0|].
  destruct ex as [e|]; [now exists 0|].
  destruct fk as [e|]; [finally_calls fk' sy' de; now exists 0|].
  destruct sy as [e|]; [finally_calls fk' sy' de; now exists 0|].
  destruct cc as [e|]; [finally_calls fk' sy' de; now exists 0|].
  destruct co as [e|]; [finally_calls fk' sy' de; now exists 0|].
  dump.
  destruct cf as [e|]; [now exists 1|].
  destruct (listener_threw "customers" ce); [now exists 1|].
  destruct (settlement "customers" ce) as [[n1|n1 msg1]|]; [| |now exists 1];
    (destruct ofile as [e|]; [now exists 2|]);
    (destruct (listener_threw "organizations" oe); [now exists 2|]);
    (destruct (settlement "organizations" oe) as [[n2|n2 msg2]|];
     [| |now exists 2]);
    finally_calls fk' sy' de; now exists 2.
Qed.

(** Once the calls before the jobs have succeeded and the customers job
    has come back, the organizations job is attempted. *)
Lemma second_job_is_attempted (w : World) (o1 : Job.Settlement) :
  setup_succeeds w ->
  reports (customers_file w) "customers" (customers_events w) = Some o1 ->
  attempted (snd (processDataDump w [])) = ["customers"; "organizations"].
Proof.
  destruct w as [m1 m2 m3 dl ex fk sy cc co ce oe fk' sy' de ds es cf ofile].
  unfold setup_succeeds. dump.
  intros (-> & -> & -> & -> & -> & -> & -> & -> & -> & -> & ->) H1.
  unfold reports in H1.
  destruct cf as [e|]; [discriminate H1|].
  destruct (listener_threw "customers" ce); [discriminate H1|].
  rewrite H1.
  destruct o1 as [n1|n1 msg1];
    (destruct ofile as [e|]; [reflexivity|]);
    (destruct (listener_threw "organizations" oe); [reflexivity|]);
    (destruct (settlement "organizations" oe) as [[n2|n2 msg2]|];
     [| |reflexivity]);
    finally_calls fk' sy' de; reflexivity.
Qed.

(** When both jobs have come back, the count each of them reported is
    logged and [processDataDump] is not left waiting. *)
Lemma reported_counts_are_logged (w : World) (o1 o2 : Job.Settlement) :
  setup_succeeds w ->
  reports (customers_file w) "customers" (customers_events w) = Some o1 ->
  reports (organizations_file w) "organizations" (organizations_events w)
  = Some o2 ->
  fst (processDataDump w []) <> Hangs
  /\ In (Log ("Total rows inserted into customers table: "
              ++ number (reported o1)))
        (snd (processDataDump w []))
  /\ In (Log ("Total rows inserted into organizations table: "
              ++ number (reported o2)))
        (snd (processDataDump w [])).
Proof.
  destruct w as [m1 m2 m3 dl ex fk sy cc co ce oe fk' sy' de ds es cf ofile].
  unfold setup_succeeds. dump.
  intros (-> & -> & -> & -> & -> & -> & -> & -> & -> & -> & ->) H1 H2.
  unfold reports in H1, H2.
  destruct cf as [e|]; [discriminate H1|].
  destruct (listener_threw "customers" ce); [discriminate H1|].
  destruct ofile as [e|]; [discriminate H2|].
  destruct (listener_threw "organizations" oe); [discriminate H2|].
  rewrite H1, H2.
  destruct o1 as [n1|n1 msg1], o2 as [n2|n2 msg2];
    finally_calls fk' sy' de; cbn [fst snd app reported];
    (split; [discriminate|]); split; there.
Qed.

(** C10, failing inputs.  The customers insert is refused and
    failed_rows.log cannot be written: the 'end' listener throws out of
    its [catch] block, its rejection is unhandled and the process ends
    with status 1, while [main] is still waiting for [processDataDump];
    nothing is caught, [console.error] and [process.exit(0)] are not
    reached.  The same status ends the process when the csv file of a job
    cannot be read and when gunzip fails: those streams have no 'error'
    listener. *)
Theorem C10_unhandled_errors_end_the_process_with_status_one :
  main log_unwritable_world []
  = (Exits 1,
     [Call "mkdir tmp/"; Call "mkdir tmp/extracted/"; Call "mkdir out";
      Call "downloadFile"; Call "extractTar"; Call "setupDatabase";
      Call "PRAGMA foreign_keys = OFF"; Call "PRAGMA synchronous = OFF";
      Call "createTable customers"; Call "createTable organizations";
      Log "Starting insertion for customers.csv...";
      InsertData "tmp/extracted//dump/customers.csv" "customers";
      UnhandledRejection "customers"])
  /\ fst (main csv_missing []) = Exits 1
  /\ fst (main not_an_archive []) = Exits 1.
Proof.
  split; [vm_compute; reflexivity|].
  split; vm_compute; reflexivity.
Qed.




End OrchestratorFacts.

(* ------------------------------------------------------------------ *)
(** ** What every run of insertDataWithSummary keeps *)

Module JobInvariants.

Import Job JobCounts.

(** The cases of one turn: [H : step s e = Some s'] is replaced by the
    state each enabled event leads to. *)
Ltac turn H :=
  match type of H with
  | Job.step _ _ ?s ?e = Some _ =>
      destruct e as [row| |error|t ok|t ok|t ok|t ok]; cbn [Job.step] in H;
      [ destruct (flowing s) eqn:Hflow; [|discriminate H]
      | destruct (flowing s) eqn:Hflow; [|discriminate H]
      | destruct (flowing s) eqn:Hflow; [|discriminate H]
      | destruct (phase_of t s) as [[| | | |]|] eqn:Hphase;
          try discriminate H; destruct ok
      | destruct (phase_of t s) as [[|sent|sent| |]|] eqn:Hphase;
          try discriminate H; destruct ok
      | destruct (phase_of t s) as [[|sent|sent| |]|] eqn:Hphase;
          try discriminate H;
          destruct (listener_of t s) as [l|] eqn:Hlistener;
          try discriminate H; destruct ok
      | destruct (phase_of t s) as [[| | | |]|] eqn:Hphase;
          try discriminate H ];
      injection H as <-
  end.

Section Runs.

Variable tableName : string.
Variable batchSize : nat.

Local Abbreviation step := (Job.step tableName batchSize).
Local Abbreviation run := (Job.run tableName batchSize).

(** A relation that holds across every turn holds across every run. *)
Lemma across_runs (R : State -> State -> Prop) :
  (forall s, R s s) ->
  (forall a b c, R a b -> R b c -> R a c) ->
  (forall s e s', step s e = Some s' -> R s s') ->
  forall evs s s', run s evs = Some s' -> R s s'.
Proof.
  intros Hrefl Htrans Hstep.
  induction evs as [|e evs IH]; intros s s'; cbn [Job.run].
  - intros [= <-]. apply Hrefl.
  - destruct (step s e) as [s1|] eqn:H1; [|discriminate].
    intros Hrun. eapply Htrans; [eapply Hstep, H1|apply IH, Hrun].
Qed.

Lemma settle_promise_kept (v w : Settlement) (s : State) :
  promise s = Some v -> promise (settle w s) = Some v.
Proof. intros H. unfold settle. now rewrite H. Qed.

Lemma on_catch_promise_kept (ok : bool) (v : Settlement) (s : State) :
  promise s = Some v -> promise (on_catch tableName ok s) = Some v.
Proof.
  intros H. unfold on_catch, logFailedRows.
  destruct (rows s); [now apply settle_promise_kept|].
  destruct ok; [now apply settle_promise_kept|exact H].
Qed.

Lemma step_promise_kept (s s' : State) (e : Event) (v : Settlement) :
  step s e = Some s' -> promise s = Some v -> promise s' = Some v.
Proof.
  intros H Hv. turn H.
  - unfold on_data. now destruct (length _ =? batchSize).
  - unfold on_end. destruct (0 <? length _); [exact Hv|].
    now apply settle_promise_kept.
  - unfold on_error. now apply settle_promise_kept.
  - exact Hv.
  - exact Hv.
  - exact Hv.
  - exact Hv.
  - destruct l; [exact Hv|now apply settle_promise_kept].
  - exact Hv.
  - now apply on_catch_promise_kept.
Qed.

Lemma run_promise_kept (evs : list Event) (s s' : State) (v : Settlement) :
  run s evs = Some s' -> promise s = Some v -> promise s' = Some v.
Proof.
  apply (across_runs
           (fun a b => promise a = Some v -> promise b = Some v)).
  - auto.
  - auto.
  - intros a e b H. now apply step_promise_kept with (e := e).
Qed.

(** *** What the log, the table and the sink have seen only grows *)

Lemma on_catch_log (ok : bool) (s : State) :
  exists text,
    failed_rows_log (on_catch tableName ok s)
    = (failed_rows_log s ++ text)%string.
Proof.
  unfold on_catch, logFailedRows.
  destruct (rows s) as [|r rs].
  - exists EmptyString. unfold settle.
    destruct (promise s); cbn; now rewrite JsonFacts.append_empty_r.
  - destruct ok.
    + exists (Json.appended (r :: rs)). unfold settle.
      now destruct (promise _).
    + exists EmptyString. cbn. now rewrite JsonFacts.append_empty_r.
Qed.

Lemma settle_log (v : Settlement) (s : State) :
  failed_rows_log (settle v s) = failed_rows_log s.
Proof. unfold settle. now destruct (promise s). Qed.

Lemma step_log (s s' : State) (e : Event) :
  step s e = Some s' ->
  exists text, failed_rows_log s' = (failed_rows_log s ++ text)%string.
Proof.
  intros H. turn H;
    [exists EmptyString; rewrite JsonFacts.append_empty_r ..
    |destruct (on_catch_log ok (to_phase t Finished s)) as [text Ht];
     exists text; exact Ht].
  - unfold on_data. now destruct (length _ =? batchSize).
  - unfold on_end. destruct (0 <? length _); [reflexivity|].
    now rewrite settle_log.
  - unfold on_error. now rewrite settle_log.
  - reflexivity.
  - reflexivity.
  - reflexivity.
  - reflexivity.
  - destruct l; cbn [after_transaction]; [reflexivity|now rewrite settle_log].
  - reflexivity.
Qed.

Lemma run_log (evs : list Event) (s s' : State) :
  run s evs = Some s' ->
  exists text, failed_rows_log s' = (failed_rows_log s ++ text)%string.
Proof.
  apply (across_runs
           (fun a b => exists text,
                failed_rows_log b = (failed_rows_log a ++ text)%string)).
  - intros a. exists EmptyString. now rewrite JsonFacts.append_empty_r.
  - intros a b c [t1 H1] [t2 H2]. exists (t1 ++ t2)%string.
    now rewrite H2, H1, JsonFacts.append_assoc.
  - intros a e b. apply step_log.
Qed.

Lemma run_table (evs : list Event) (s s' : State) :
  run s evs = Some s' ->
  sound s ->
  exists applied,
    table s' = table s ++ concat applied /\ incl applied (inserts s').
Proof.
  revert s.
  induction evs as [|e evs IH]; intros s; cbn [Job.run].
  - intros [= <-] _. exists []. cbn. rewrite app_nil_r.
    split; [reflexivity|]. intros b [].
  - destruct (step s e) as [s1|] eqn:H1; [|discriminate].
    intros Hrun Hs.
    pose proof (JobFacts.step_sound _ _ _ _ _ H1 Hs) as Hs1.
    destruct (IH _ Hrun Hs1) as [applied [Htab Hincl]].
    destruct (JobFacts.step_table _ _ _ _ _ H1)
      as [Hsame|[t [sent [_ [Hphase Hadd]]]]].
    + exists applied. split; [congruence|exact Hincl].
    + exists (sent :: applied). split.
      * rewrite Htab, Hadd. cbn. now rewrite app_assoc.
      * intros b [<-|Hb]; [|now apply Hincl].
        assert (Hin : In sent (inserts s)).
        { destruct Hs as [Hflight _]. apply (Hflight t). now right. }
        pose proof (JobFacts.step_inserts _ _ _ _ _ H1) as Hgrow.
        assert (Hfrom : forall evs' a b, run a evs' = Some b ->
                          incl (inserts a) (inserts b)).
        { apply (across_runs (fun a b => incl (inserts a) (inserts b))).
          - intros a. apply incl_refl.
          - intros a b0 c. apply incl_tran.
          - intros a e0 b0. apply JobFacts.step_inserts. }
        apply (Hfrom _ _ _ Hrun), Hgrow, Hin.
Qed.

(** *** Transactions and their listeners *)

Lemma length_set_phase (l : list Tx) (t : nat) (p : Phase) :
  length (set_phase t p l) = length l.
Proof.
  revert t. induction l as [|x l IH]; intros [|t]; cbn; auto.
Qed.

Lemma filter_set_phase_same (f : Tx -> bool) (l : list Tx) (t : nat)
    (p : Phase) :
  (forall x, nth_error l t = Some x ->
             f {| listener := listener x; phase := p |} = f x) ->
  length (filter f (set_phase t p l)) = length (filter f l).
Proof.
  revert t. induction l as [|x l IH]; intros [|t] Hf; cbn; auto.
  - rewrite (Hf x eq_refl). now destruct (f x).
  - destruct (f x); cbn; rewrite IH; auto.
Qed.

Lemma filter_set_phase_drop (f : Tx -> bool) (l : list Tx) (t : nat)
    (p : Phase) (x : Tx) :
  nth_error l t = Some x ->
  f x = true ->
  f {| listener := listener x; phase := p |} = false ->
  S (length (filter f (set_phase t p l))) = length (filter f l).
Proof.
  revert t. induction l as [|y l IH]; intros [|t]; cbn; try discriminate.
  - intros [= ->] Hx Hp. now rewrite Hx, Hp.
  - intros Hnth Hx Hp. destruct (f y); cbn; rewrite <- (IH t); auto.
Qed.

Lemma filter_has (f : Tx -> bool) (l : list Tx) (t : nat) (x : Tx) :
  nth_error l t = Some x -> f x = true -> 0 < length (filter f l).
Proof.
  intros Hnth Hx.
  assert (Hin : In x (filter f l)).
  { apply filter_In. split; [eapply nth_error_In, Hnth|exact Hx]. }
  destruct (filter f l); [destruct Hin|cbn; lia].
Qed.

Lemma tx_at (s : State) (t : nat) (p : Phase) (l : Listener) :
  phase_of t s = Some p ->
  listener_of t s = Some l ->
  nth_error (txs s) t = Some {| listener := l; phase := p |}.
Proof.
  unfold phase_of, listener_of.
  destruct (nth_error (txs s) t) as [[l' p']|]; cbn; [|discriminate].
  now intros [= ->] [= ->].
Qed.

Lemma tx_has_listener (s : State) (t : nat) (p : Phase) :
  phase_of t s = Some p -> exists l, listener_of t s = Some l.
Proof.
  unfold phase_of, listener_of.
  destruct (nth_error (txs s) t) as [[l' p']|]; cbn; [|discriminate].
  intros _. now exists l'.
Qed.

Lemma awaiting_same (l : list Tx) (t : nat) (p q : Phase) (lsn : Listener) :
  nth_error l t = Some {| listener := lsn; phase := q |} ->
  pending p = pending q ->
  length (filter awaiting_data (set_phase t p l))
  = length (filter awaiting_data l).
Proof.
  intros Hnth Hpq. apply filter_set_phase_same.
  intros x Hx. rewrite Hnth in Hx. injection Hx as <-.
  unfold awaiting_data, by_data. cbn. now rewrite Hpq.
Qed.

Lemma awaiting_by_end (l : list Tx) (t : nat) (p q : Phase) :
  nth_error l t = Some {| listener := OnEnd; phase := q |} ->
  length (filter awaiting_data (set_phase t p l))
  = length (filter awaiting_data l).
Proof.
  intros Hnth. apply filter_set_phase_same.
  intros x Hx. rewrite Hnth in Hx. now injection Hx as <-.
Qed.

Lemma awaiting_finished (l : list Tx) (t : nat) (q : Phase) :
  nth_error l t = Some {| listener := OnData; phase := q |} ->
  pending q = true ->
  S (length (filter awaiting_data (set_phase t Finished l)))
  = length (filter awaiting_data l).
Proof.
  intros Hnth Hq.
  apply filter_set_phase_drop
    with (x := {| listener := OnData; phase := q |}); auto.
Qed.

Lemma on_catch_rows (ok : bool) (s : State) :
  rows (on_catch tableName ok s) = rows s.
Proof.
  unfold on_catch, logFailedRows, settle.
  destruct (rows s) eqn:Hr; [destruct (promise s); cbn; auto|].
  destruct ok; cbn; [|auto].
  destruct (promise s); cbn; auto.
Qed.

Lemma on_catch_flowing (ok : bool) (s : State) :
  flowing (on_catch tableName ok s) = flowing s.
Proof.
  unfold on_catch, logFailedRows, settle.
  destruct (rows s) eqn:Hr; [destruct (promise s); cbn; auto|].
  destruct ok; cbn; [|auto].
  destruct (promise s); cbn; auto.
Qed.

Lemma on_catch_same_txs (ok : bool) (s : State) :
  txs (on_catch tableName ok s) = txs s.
Proof. apply JobFacts.on_catch_txs. Qed.

Lemma step_one_at_a_time (s s' : State) (e : Event) :
  step s e = Some s' -> one_at_a_time batchSize s -> one_at_a_time batchSize s'.
Proof.
  unfold one_at_a_time, data_pending.
  intros H [Hle Hfull]. turn H.
  - unfold on_data. cbn [rows set_rows].
    destruct (length (rows s ++ [row]) =? batchSize) eqn:Hhit.
    + apply Nat.eqb_eq in Hhit. cbn. rewrite filter_app, !length_app. cbn.
      rewrite length_app in Hhit. cbn in Hhit. lia.
    + cbn. rewrite length_app. cbn. lia.
  - unfold on_end. cbn [rows set_flowing].
    destruct (0 <? length (rows s)).
    + cbn. rewrite filter_app, length_app. cbn. lia.
    + unfold settle. destruct (promise _); cbn; auto.
  - unfold on_error, settle. destruct (promise _); cbn; auto.
  - destruct (tx_has_listener _ _ _ Hphase) as [l Hl].
    cbn. rewrite (awaiting_same _ _ _ _ _ (tx_at _ _ _ _ Hphase Hl)); auto.
  - destruct (tx_has_listener _ _ _ Hphase) as [l Hl].
    cbn. rewrite (awaiting_same _ _ _ _ _ (tx_at _ _ _ _ Hphase Hl)); auto.
  - destruct (tx_has_listener _ _ _ Hphase) as [l Hl].
    cbn. rewrite (awaiting_same _ _ _ _ _ (tx_at _ _ _ _ Hphase Hl)); auto.
  - destruct (tx_has_listener _ _ _ Hphase) as [l Hl].
    cbn. rewrite (awaiting_same _ _ _ _ _ (tx_at _ _ _ _ Hphase Hl)); auto.
  - pose proof (tx_at _ _ _ _ Hphase Hlistener) as Hnth.
    destruct l; cbn.
    + pose proof (awaiting_finished _ _ _ Hnth eq_refl). lia.
    + unfold settle. destruct (promise _); cbn;
        rewrite (awaiting_by_end _ _ _ _ Hnth); auto.
  - cbn. rewrite (awaiting_same _ _ _ _ _ (tx_at _ _ _ _ Hphase Hlistener));
      auto.
  - destruct (tx_has_listener _ _ _ Hphase) as [l Hl].
    pose proof (tx_at _ _ _ _ Hphase Hl) as Hnth.
    rewrite on_catch_same_txs, on_catch_rows. cbn.
    destruct l.
    + pose proof (awaiting_finished _ _ _ Hnth eq_refl). lia.
    + rewrite (awaiting_by_end _ _ _ _ Hnth); auto.
Qed.

Lemma reachable_one_at_a_time (s : State) :
  reachable tableName batchSize s -> one_at_a_time batchSize s.
Proof.
  intros [evs Hrun]. revert Hrun.
  assert (H0 : one_at_a_time batchSize init) by (split; cbn; [lia|discriminate]).
  revert H0. generalize init as a. revert s.
  induction evs as [|e evs IH]; intros s a Ha; cbn [Job.run].
  - now intros [= <-].
  - destruct (step a e) as [a1|] eqn:H1; [|discriminate].
    apply IH. eapply step_one_at_a_time; eassumption.
Qed.

Lemma started_same (l : list Tx) (t : nat) (p : Phase) :
  length (filter by_data (set_phase t p l)) = length (filter by_data l).
Proof. apply filter_set_phase_same. reflexivity. Qed.

Lemma ended_same (l : list Tx) (t : nat) (p : Phase) :
  length (filter (fun x => negb (by_data x)) (set_phase t p l))
  = length (filter (fun x => negb (by_data x)) l).
Proof. apply filter_set_phase_same. reflexivity. Qed.

Lemma step_stuck (s s' : State) (e : Event) :
  step s e = Some s' -> stuck batchSize s -> only_grows batchSize s s'.
Proof.
  unfold only_grows, stuck, data_pending, data_started.
  intros H [Hfull Hnone]. turn H.
  - unfold on_data. cbn [rows set_rows].
    destruct (length (rows s ++ [row]) =? batchSize) eqn:Hhit.
    + apply Nat.eqb_eq in Hhit. rewrite length_app in Hhit. cbn in Hhit. lia.
    + cbn. rewrite length_app. cbn.
      split; [lia|]. split; [now exists [row]|reflexivity].
  - unfold on_end. cbn [rows set_flowing].
    destruct (0 <? length (rows s)).
    + cbn. rewrite !filter_app, !length_app. cbn.
      split; [lia|]. split; [exists []; now rewrite app_nil_r|lia].
    + unfold settle. destruct (promise _); cbn;
        (split; [lia|]; split; [exists []; now rewrite app_nil_r|reflexivity]).
  - unfold on_error, settle. destruct (promise _); cbn;
      (split; [lia|]; split; [exists []; now rewrite app_nil_r|reflexivity]).
  - destruct (tx_has_listener _ _ _ Hphase) as [l Hl]. cbn.
    rewrite (awaiting_same _ _ _ _ _ (tx_at _ _ _ _ Hphase Hl)), started_same
      by reflexivity.
    split; [lia|]. split; [exists []; now rewrite app_nil_r|reflexivity].
  - destruct (tx_has_listener _ _ _ Hphase) as [l Hl]. cbn.
    rewrite (awaiting_same _ _ _ _ _ (tx_at _ _ _ _ Hphase Hl)), started_same
      by reflexivity.
    split; [lia|]. split; [exists []; now rewrite app_nil_r|reflexivity].
  - destruct (tx_has_listener _ _ _ Hphase) as [l Hl]. cbn.
    rewrite (awaiting_same _ _ _ _ _ (tx_at _ _ _ _ Hphase Hl)), started_same
      by reflexivity.
    split; [lia|]. split; [exists []; now rewrite app_nil_r|reflexivity].
  - destruct (tx_has_listener _ _ _ Hphase) as [l Hl]. cbn.
    rewrite (awaiting_same _ _ _ _ _ (tx_at _ _ _ _ Hphase Hl)), started_same
      by reflexivity.
    split; [lia|]. split; [exists []; now rewrite app_nil_r|reflexivity].
  - pose proof (tx_at _ _ _ _ Hphase Hlistener) as Hnth.
    destruct l.
    + pose proof (filter_has awaiting_data _ _ _ Hnth eq_refl). lia.
    + cbn [after_transaction]. unfold settle. destruct (promise _); cbn;
        rewrite (awaiting_by_end _ _ _ _ Hnth), started_same;
        (split; [lia|]; split; [exists []; now rewrite app_nil_r|reflexivity]).
  - cbn.
    rewrite (awaiting_same _ _ _ _ _ (tx_at _ _ _ _ Hphase Hlistener)),
      started_same by reflexivity.
    split; [lia|]. split; [exists []; now rewrite app_nil_r|reflexivity].
  - destruct (tx_has_listener _ _ _ Hphase) as [l Hl].
    pose proof (tx_at _ _ _ _ Hphase Hl) as Hnth.
    rewrite on_catch_same_txs, on_catch_rows. cbn.
    destruct l.
    + pose proof (filter_has awaiting_data _ _ _ Hnth eq_refl). lia.
    + rewrite (awaiting_by_end _ _ _ _ Hnth), started_same.
      split; [lia|]. split; [exists []; now rewrite app_nil_r|reflexivity].
Qed.

Lemma run_stuck (evs : list Event) (s s' : State) :
  run s evs = Some s' -> stuck batchSize s -> only_grows batchSize s s'.
Proof.
  revert s.
  induction evs as [|e evs IH]; intros s; cbn [Job.run].
  - intros [= <-] Hs. split; [exact Hs|].
    split; [exists []; now rewrite app_nil_r|reflexivity].
  - destruct (step s e) as [s1|] eqn:H1; [|discriminate].
    intros Hrun Hs.
    destruct (step_stuck _ _ _ H1 Hs) as [Hs1 [[m1 Hr1] Hd1]].
    destruct (IH _ Hrun Hs1) as [Hs' [[m2 Hr2] Hd2]].
    split; [exact Hs'|]. split; [|congruence].
    exists (m1 ++ m2). now rewrite Hr2, Hr1, app_assoc.
Qed.

(** X8.  After the [catch] block of a transaction of the 'data' listener
    has run, [rows] is never cleared again and the 'data' listener starts
    no further transaction: every row delivered from then on is kept in
    [rows], which holds [batchSize] rows or more. *)
Theorem rows_accumulate_after_a_failed_batch
    (s s1 s' : State) (t : nat) (append_ok : bool) (evs : list Event) :
  reachable tableName batchSize s ->
  listener_of t s = Some OnData ->
  step s (Caught t append_ok) = Some s1 ->
  run s1 evs = Some s' ->
  (exists more, rows s' = rows s ++ more)
  /\ batchSize <= length (rows s')
  /\ data_started s' = data_started s.
Proof.
  intros Hreach Hl Hstep Hrun.
  destruct (reachable_one_at_a_time _ Hreach) as [Hle Hfull].
  assert (Hs1 : stuck batchSize s1 /\ rows s1 = rows s
                /\ data_started s1 = data_started s).
  { cbn [Job.step] in Hstep.
    destruct (phase_of t s) as [[| | | |]|] eqn:Hphase; try discriminate.
    injection Hstep as <-.
    pose proof (tx_at _ _ _ _ Hphase Hl) as Hnth.
    pose proof (filter_has awaiting_data _ _ _ Hnth eq_refl) as Hsome.
    pose proof (awaiting_finished _ _ _ Hnth eq_refl) as Hdrop.
    unfold stuck, data_pending, data_started in *.
    rewrite on_catch_same_txs, on_catch_rows. cbn.
    rewrite started_same.
    repeat split; [apply Hfull|]; lia. }
  destruct Hs1 as [Hstuck [Hrows Hstarted]].
  destruct (run_stuck _ _ _ Hrun Hstuck) as [[Hfull' _] [[more Hmore] Hd]].
  split; [exists more; congruence|]. split; [exact Hfull'|congruence].
Qed.

(** *** After the parser has stopped *)

Lemma step_after_the_end (s s' : State) (e : Event) :
  step s e = Some s' ->
  flowing s = false ->
  flowing s' = false /\ length (txs s') = length (txs s)
  /\ (rows s' = rows s \/ rows s' = []).
Proof.
  intros H Hstop. turn H; try congruence.
  - cbn. rewrite length_set_phase. auto.
  - cbn. rewrite length_set_phase. auto.
  - cbn. rewrite length_set_phase. auto.
  - cbn. rewrite length_set_phase. auto.
  - destruct l; cbn [after_transaction]; [|unfold settle; destruct (promise _)];
      cbn; rewrite length_set_phase; auto.
  - cbn. rewrite length_set_phase. auto.
  - rewrite on_catch_same_txs, on_catch_rows, on_catch_flowing.
    cbn. rewrite length_set_phase. auto.
Qed.

(** X5.  Once the parser has emitted 'end' or 'error', no transaction is
    started any more, and [rows] is left as it is or cleared. *)
Theorem nothing_starts_after_the_parser_stopped
    (evs : list Event) (s s' : State) :
  run s evs = Some s' ->
  flowing s = false ->
  flowing s' = false /\ length (txs s') = length (txs s)
  /\ (rows s' = rows s \/ rows s' = []).
Proof.
  apply (across_runs
           (fun a b => flowing a = false ->
              flowing b = false /\ length (txs b) = length (txs a)
              /\ (rows b = rows a \/ rows b = []))).
  - auto.
  - intros a b c Hab Hbc Ha.
    destruct (Hab Ha) as [Hb [Hlb Hrb]].
    destruct (Hbc Hb) as [Hc [Hlc Hrc]].
    split; [exact Hc|]. split; [congruence|].
    destruct Hrc as [Hrc|Hrc]; [|now right].
    destruct Hrb as [Hrb|Hrb]; [left|right]; congruence.
  - intros a e b. apply step_after_the_end.
Qed.

(** *** The 'end' listener *)

Ltac resolved_before :=
  match goal with
  | Hp : promise ?s = Some ?v, H : promise ?s = Some (Resolved ?n),
    Hpending : forall n, Some ?v <> _ |- _ =>
      rewrite Hp in H; destruct (Hpending n H)
  | Hp : promise ?s = None, H : promise ?s = Some _ |- _ =>
      rewrite Hp in H; discriminate H
  | H : Some (Resolved _) = Some (Resolved _) |- _ =>
      injection H as <-; lia
  | H : Some (Rejected _ _) = Some (Resolved _) |- _ => discriminate H
  end.

Ltac from_before Hres :=
  try match goal with
      | Hp : promise ?s = Some ?v, H : promise ?s = Some (Resolved _) |- _ =>
          rewrite Hp in H
      end;
  match goal with
  | H : _ = Some (Resolved ?n) |- _ =>
      destruct (Hres n H); first [assumption|cbn; lia]
  end.

Lemma step_closing (s s' : State) (e : Event) :
  step s e = Some s' -> closing batchSize s -> closing batchSize s'.
Proof.
  unfold closing, end_started, data_started.
  intros H (Hflowing & Hone & Hres & Hzero).
  assert (Hold : forall n, promise s = Some (Resolved n) ->
                   flowing s = false /\ n <= totalRowCount s) by exact Hres.
  turn H.
  - assert (Hpending : forall n, promise s <> Some (Resolved n))
      by (intros n Hn; destruct (Hres n Hn); discriminate).
    unfold on_data. cbn [rows set_rows].
    destruct (length (rows s ++ [row]) =? batchSize) eqn:Hhit; cbn.
    + apply Nat.eqb_eq in Hhit. rewrite length_app in Hhit. cbn in Hhit.
      rewrite !filter_app, !length_app. cbn.
      rewrite (Hflowing eq_refl).
      repeat split; intros; try lia; try (now destruct (Hpending n)).
    + repeat split; intros; auto; try (now destruct (Hpending n)).
  - assert (Hpending : forall n, promise s <> Some (Resolved n))
      by (intros n Hn; destruct (Hres n Hn); discriminate).
    unfold on_end. cbn [rows set_flowing totalRowCount].
    destruct (0 <? length (rows s)); cbn.
    + rewrite !filter_app, !length_app. cbn.
      rewrite (Hflowing eq_refl).
      repeat split; intros; try lia; try discriminate;
        try (now destruct (Hpending n)).
    + unfold settle. cbn. destruct (promise s) as [v|] eqn:Hp; cbn;
        repeat split; intros; auto; try discriminate;
        try (now destruct (Hpending n)); resolved_before.
  - assert (Hpending : forall n, promise s <> Some (Resolved n))
      by (intros n Hn; destruct (Hres n Hn); discriminate).
    unfold on_error, settle. cbn. destruct (promise s) as [v|] eqn:Hp; cbn;
      repeat split; intros; auto; try discriminate;
      try (now destruct (Hpending n)); resolved_before.
  - cbn. rewrite ended_same, started_same.
    repeat split; intros; auto; from_before Hres.
  - cbn. rewrite ended_same, started_same.
    repeat split; intros; auto; from_before Hres.
  - cbn. rewrite ended_same, started_same.
    repeat split; intros; auto; from_before Hres.
  - cbn. rewrite ended_same, started_same.
    repeat split; intros; auto; from_before Hres.
  - pose proof (tx_at _ _ _ _ Hphase Hlistener) as Hnth.
    destruct l; cbn [after_transaction].
    + cbn. rewrite ended_same, started_same.
      repeat split; intros; auto; from_before Hres.
    + pose proof (filter_has (fun x => negb (by_data x)) _ _ _ Hnth eq_refl)
        as Hended.
      assert (Hstop : flowing s = false).
      { destruct (flowing s); [|reflexivity].
        rewrite (Hflowing eq_refl) in Hended. lia. }
      unfold settle. cbn. destruct (promise s) as [v|] eqn:Hp; cbn;
        rewrite ended_same, started_same; repeat split; intros; auto;
        first [from_before Hres|resolved_before].
  - cbn. rewrite ended_same, started_same.
    repeat split; intros; auto; from_before Hres.
  - rewrite on_catch_same_txs, on_catch_flowing. cbn.
    rewrite ended_same, started_same.
    assert (Hkept : forall n,
               promise (on_catch tableName ok (to_phase t Finished s))
               = Some (Resolved n) ->
               promise s = Some (Resolved n)).
    { intros n. unfold on_catch, logFailedRows, settle. cbn.
      destruct (rows s); [|destruct ok]; cbn;
        destruct (promise s) eqn:Hp; cbn; intros Hn; congruence. }
    assert (Htotal : totalRowCount (on_catch tableName ok (to_phase t Finished s))
                     = totalRowCount s).
    { unfold on_catch, logFailedRows, settle. cbn.
      destruct (rows s); [|destruct ok]; cbn; destruct (promise s); cbn;
        reflexivity. }
    rewrite Htotal.
    repeat split; intros; auto;
      match goal with
      | H : promise _ = Some (Resolved ?n) |- _ =>
          destruct (Hres n (Hkept n H)); first [assumption|lia]
      end.
Qed.

Lemma reachable_closing (s : State) :
  reachable tableName batchSize s -> closing batchSize s.
Proof.
  intros [evs Hrun]. revert Hrun.
  assert (H0 : closing batchSize init)
    by (unfold closing; cbn; repeat split; auto; discriminate).
  revert H0. generalize init as a. revert s.
  induction evs as [|e evs IH]; intros s a Ha; cbn [Job.run].
  - now intros [= <-].
  - destruct (step a e) as [a1|] eqn:H1; [|discriminate].
    apply IH. eapply step_closing; eassumption.
Qed.

(** X6.  The job is resolved only after the parser has ended, and with
    a count that [totalRowCount] has reached. *)
Theorem resolved_only_after_the_end (s : State) (n : nat) :
  reachable tableName batchSize s ->
  promise s = Some (Resolved n) ->
  flowing s = false /\ n <= totalRowCount s.
Proof.
  intros Hreach. destruct (reachable_closing _ Hreach) as (_ & _ & Hres & _).
  apply Hres.
Qed.

(** X7.  At any moment at most one transaction started by the 'data'
    listener is outstanding, and while one is, [rows] holds [batchSize]
    rows or more. *)
Theorem one_data_transaction_at_a_time (s : State) :
  reachable tableName batchSize s ->
  data_pending s <= 1
  /\ (data_pending s = 1 -> batchSize <= length (rows s)).
Proof. apply reachable_one_at_a_time. Qed.

(** X9.  With [batchSize = 0] the test [rows.length === batchSize]
    never holds after a push: the 'data' listener starts no transaction,
    and the whole job makes at most one, the one of the 'end' listener. *)
Theorem batch_size_zero_never_commits_on_data (s : State) :
  batchSize = 0 ->
  reachable tableName batchSize s ->
  data_started s = 0 /\ length (txs s) <= 1.
Proof.
  intros Hzero Hreach.
  destruct (reachable_closing _ Hreach) as (_ & Hone & _ & Hnone).
  split; [now apply Hnone|].
  rewrite <- (filter_length by_data (txs s)).
  unfold data_started, end_started in *. rewrite (Hnone Hzero). cbn. exact Hone.
Qed.

(** X1.  [totalRowCount] never decreases, whatever the turns and their
    order: a failed or rolled back transaction takes nothing off it. *)
Theorem count_never_decreases (evs : list Event) (s s' : State) :
  run s evs = Some s' -> totalRowCount s <= totalRowCount s'.
Proof.
  apply (across_runs (fun a b => totalRowCount a <= totalRowCount b)).
  - auto.
  - intros a b c. apply Nat.le_trans.
  - intros a e b. apply JobFacts.step_totalRowCount.
Qed.

End Runs.

(** *** The facts above on concrete runs *)

Import Examples Inputs.

Lemma count_never_decreases_witness :
  totalRowCount init <= totalRowCount (after 1 committed_once).
Proof.
  apply (count_never_decreases "customers" 1 committed_once).
  vm_compute. reflexivity.
Defined.

Lemma nothing_starts_after_the_parser_stopped_witness :
  flowing (continue 1 (after 1 [Data r1; End]) (commits 0)) = false
  /\ length (txs (continue 1 (after 1 [Data r1; End]) (commits 0)))
     = length (txs (after 1 [Data r1; End]))
  /\ (rows (continue 1 (after 1 [Data r1; End]) (commits 0))
      = rows (after 1 [Data r1; End])
      \/ rows (continue 1 (after 1 [Data r1; End]) (commits 0)) = []).
Proof.
  apply (nothing_starts_after_the_parser_stopped "customers" 1 (commits 0));
    vm_compute; reflexivity.
Defined.

Lemma resolved_only_after_the_end_witness :
  flowing (after 1 [End]) = false /\ 0 <= totalRowCount (after 1 [End]).
Proof.
  apply (resolved_only_after_the_end "customers" 1).
  - exists [End]. vm_compute. reflexivity.
  - vm_compute. reflexivity.
Defined.

Lemma one_data_transaction_at_a_time_witness :
  data_pending (after 1 [Data r1; Data r2]) <= 1
  /\ (data_pending (after 1 [Data r1; Data r2]) = 1 ->
      1 <= length (rows (after 1 [Data r1; Data r2]))).
Proof.
  apply (one_data_transaction_at_a_time "customers" 1).
  exists [Data r1; Data r2]. vm_compute. reflexivity.
Defined.

Lemma rows_accumulate_after_a_failed_batch_witness :
  (exists more,
      rows (continue 1 (after 1 refused_once) [Data r2; Data r3])
      = rows (after 1 [Data r1; Begun 0 true; Inserted 0 false]) ++ more)
  /\ 1 <= length (rows (continue 1 (after 1 refused_once) [Data r2; Data r3]))
  /\ data_started (continue 1 (after 1 refused_once) [Data r2; Data r3])
     = data_started (after 1 [Data r1; Begun 0 true; Inserted 0 false]).
Proof.
  apply (rows_accumulate_after_a_failed_batch "customers" 1
           (after 1 [Data r1; Begun 0 true; Inserted 0 false])
           (after 1 refused_once) _ 0 true [Data r2; Data r3]).
  - exists [Data r1; Begun 0 true; Inserted 0 false]. vm_compute. reflexivity.
  - vm_compute. reflexivity.
  - vm_compute. reflexivity.
  - vm_compute. reflexivity.
Defined.

Lemma batch_size_zero_never_commits_on_data_witness :
  data_started (after 0 [Data r1; Data r2; End]) = 0
  /\ length (txs (after 0 [Data r1; Data r2; End])) <= 1.
Proof.
  apply (batch_size_zero_never_commits_on_data "customers" 0).
  - reflexivity.
  - exists [Data r1; Data r2; End]. vm_compute. reflexivity.
Defined.

End JobInvariants.

(* ------------------------------------------------------------------ *)
(** ** The failure log over a whole job *)

Module LogInvariants.

Import Job Json JsonFacts JobCounts JobInvariants.
Local Open Scope string_scope.

Lemma lines_join_then (x : string) (l : list string) (rest : string) :
  Forall (fun y => has_char LF y = false) (x :: l) ->
  lines_from "" (join (String LF "") (x :: l) ++ String LF rest)
  = (x :: l ++ lines_from "" rest)%list.
Proof.
  revert x.
  induction l as [|y l IH]; intros x Hall.
  - inversion Hall as [|? ? Hx _]; subst.
    cbn [join]. now rewrite lines_from_line.
  - inversion Hall as [|? ? Hx Hrest]; subst.
    change (join (String LF "") (x :: y :: l))
      with (x ++ String LF "" ++ join (String LF "") (y :: l)).
    rewrite append_assoc.
    change ((String LF "" ++ join (String LF "") (y :: l)) ++ String LF rest)
      with (String LF (join (String LF "") (y :: l) ++ String LF rest)).
    rewrite lines_from_line by exact Hx.
    cbn [append]. rewrite IH by exact Hrest. reflexivity.
Qed.

Lemma lines_appended_then (b : list Row) (rest : string) :
  b <> [] ->
  lines (appended b ++ rest) = (map stringify b ++ lines rest)%list.
Proof.
  destruct b as [|r b]; [congruence|]. intros _.
  unfold lines, appended, logData.
  rewrite append_assoc. cbn [append map].
  rewrite lines_join_then; [reflexivity|].
  apply Forall_forall. intros x Hx.
  change (stringify r :: map stringify b) with (map stringify (r :: b)) in Hx.
  apply in_map_iff in Hx as [row [<- _]].
  apply stringify_one_line.
Qed.

Lemma lines_logged_text (logged : list (list Row)) :
  Forall (fun b => b <> []) logged ->
  lines (logged_text logged) = map stringify (concat logged).
Proof.
  induction 1 as [|b logged Hb Hall IH]; [reflexivity|].
  cbn [logged_text concat]. rewrite lines_appended_then by exact Hb.
  now rewrite IH, map_app.
Qed.

Lemma logged_text_app (a b : list (list Row)) :
  logged_text (a ++ b) = logged_text a ++ logged_text b.
Proof.
  induction a as [|x a IH]; [reflexivity|].
  cbn. now rewrite IH, append_assoc.
Qed.

Section Runs.

Variable tableName : string.
Variable batchSize : nat.

Local Abbreviation step := (Job.step tableName batchSize).
Local Abbreviation run := (Job.run tableName batchSize).

Lemma step_logged (s s' : State) (e : Event) :
  step s e = Some s' ->
  exists logged,
    Forall (fun b => b <> []) logged
    /\ failed_rows_log s' = failed_rows_log s ++ logged_text logged.
Proof.
  intros H.
  destruct e as [row| |error|t ok|t ok|t ok|t ok].
  7: { cbn [Job.step] in H.
       destruct (phase_of t s) as [[| | | |]|]; try discriminate.
       injection H as <-.
       unfold on_catch, logFailedRows, settle, to_phase. cbn.
       destruct (rows s) as [|r rs] eqn:Hrows.
       - exists []. split; [constructor|]. cbn.
         destruct (promise s); cbn; now rewrite append_empty_r.
       - destruct ok.
         + exists [r :: rs]. split; [constructor; [discriminate|constructor]|].
           cbn. destruct (promise s); cbn; now rewrite append_empty_r.
         + exists []. split; [constructor|]. cbn. now rewrite append_empty_r. }
  all: exists []; split; [constructor|]; cbn [logged_text];
    rewrite append_empty_r.
  all: cbn [Job.step] in H.
  - destruct (flowing s); [|discriminate]. injection H as <-.
    unfold on_data. now destruct (length _ =? batchSize)%nat.
  - destruct (flowing s); [|discriminate]. injection H as <-.
    unfold on_end. destruct (0 <? length _)%nat; [reflexivity|].
    unfold settle. now destruct (promise _).
  - destruct (flowing s); [|discriminate]. injection H as <-.
    unfold on_error, settle. now destruct (promise _).
  - destruct (phase_of t s) as [[| | | |]|]; try discriminate.
    now destruct ok; injection H as <-.
  - destruct (phase_of t s) as [[| | | |]|]; try discriminate.
    now destruct ok; injection H as <-.
  - destruct (phase_of t s) as [[| | | |]|]; try discriminate.
    destruct (listener_of t s) as [l|]; try discriminate.
    destruct ok; injection H as <-; [|reflexivity].
    destruct l; cbn [after_transaction]; [reflexivity|].
    unfold settle. now destruct (promise _).
Qed.

(** X4.  Over any run the failure log is only appended to, and what is
    appended reads back line by line as the [JSON.stringify] of whole
    rows, batch after batch: no line is ever cut, merged or rewritten. *)
Theorem log_reads_back_as_whole_rows (evs : list Event) (s s' : State) :
  run s evs = Some s' ->
  exists logged,
    failed_rows_log s' = failed_rows_log s ++ logged_text logged
    /\ lines (logged_text logged) = map stringify (concat logged).
Proof.
  intros Hrun.
  assert (H : exists logged,
             Forall (fun b => b <> []) logged
             /\ failed_rows_log s' = failed_rows_log s ++ logged_text logged).
  { revert Hrun.
    apply (across_runs tableName batchSize
             (fun a b => exists logged,
                  Forall (fun b0 => b0 <> []) logged
                  /\ failed_rows_log b
                     = failed_rows_log a ++ logged_text logged)).
    - intros a. exists []. split; [constructor|].
      cbn. now rewrite append_empty_r.
    - intros a b c [l1 [H1 E1]] [l2 [H2 E2]]. exists (l1 ++ l2)%list.
      split; [now apply Forall_app|].
      now rewrite E2, E1, logged_text_app, append_assoc.
    - intros a e b. apply step_logged. }
  destruct H as [logged [Hall Hlog]].
  exists logged. split; [exact Hlog|now apply lines_logged_text].
Qed.

End Runs.

Import Examples Inputs.

Lemma log_reads_back_as_whole_rows_witness :
  exists logged,
    failed_rows_log (after 1 refused_once)
    = failed_rows_log init ++ logged_text logged
    /\ lines (logged_text logged) = map stringify (concat logged).
Proof.
  apply (log_reads_back_as_whole_rows "customers" 1 refused_once).
  vm_compute. reflexivity.
Defined.

End LogInvariants.

(* ------------------------------------------------------------------ *)
(** ** Serial delivery: the batching rule and the first refusal *)

Module SerialFailure.

Import Job JobCounts JobFacts.

Section Serial.

Variable tableName : string.
Variable batchSize : nat.

Local Abbreviation step := (Job.step tableName batchSize).
Local Abbreviation run := (Job.run tableName batchSize).

Lemma set_rows_twice (a b : list Row) (s : State) :
  set_rows a (set_rows b s) = set_rows a s.
Proof. reflexivity. Qed.

(** Rows that do not fill [rows] are only pushed. *)
Lemma push_run (records : list Row) (s : State) :
  flowing s = true ->
  length (rows s) + length records < batchSize ->
  run s (map Data records) = Some (set_rows (rows s ++ records) s).
Proof.
  revert s.
  induction records as [|r records IH]; intros s Hflow Hroom.
  - cbn. rewrite app_nil_r. now destruct s.
  - cbn [map Job.run Job.step]. rewrite Hflow.
    unfold on_data. cbn [rows set_rows].
    replace (length (rows s ++ [r]) =? batchSize) with false
      by (symmetry; apply Nat.eqb_neq; rewrite length_app; cbn in *; lia).
    rewrite IH.
    + cbn [rows set_rows]. now rewrite set_rows_twice, <- app_assoc.
    + exact Hflow.
    + cbn [rows set_rows]. rewrite length_app. cbn in *. lia.
Qed.

(** Rows that fill [rows] exactly: the last push starts a transaction. *)
Lemma fill_run (records : list Row) (s : State) :
  flowing s = true ->
  records <> [] ->
  length (rows s) + length records = batchSize ->
  run s (map Data records)
  = Some (transaction OnData (set_rows (rows s ++ records) s)).
Proof.
  revert s.
  induction records as [|r records IH]; intros s Hflow Hsome Hfill;
    [congruence|].
  cbn [map Job.run Job.step]. rewrite Hflow.
  unfold on_data. cbn [rows set_rows].
  destruct records as [|r' records].
  - replace (length (rows s ++ [r]) =? batchSize) with true
      by (symmetry; apply Nat.eqb_eq; rewrite length_app; cbn in *; lia).
    reflexivity.
  - replace (length (rows s ++ [r]) =? batchSize) with false
      by (symmetry; apply Nat.eqb_neq; rewrite length_app; cbn in *; lia).
    rewrite IH.
    + cbn [rows set_rows]. now rewrite set_rows_twice, <- app_assoc.
    + exact Hflow.
    + discriminate.
    + cbn [rows set_rows]. rewrite length_app. cbn in *. lia.
Qed.

(** A transaction whose insert is refused while nothing else happens. *)
Lemma refusal_run (s : State) (l : Listener) :
  run (transaction l s) (refusal (length (txs s)))
  = Some (on_catch tableName true
            (set_txs (txs s ++ [{| listener := l; phase := Finished |}])
               (set_inserts (inserts s ++ [rows s]) s))).
Proof.
  destruct s as [rs n pr fl tx tb ins lg un].
  unfold refusal, transaction. cbn [Job.run].
  unfold Job.step at 1, phase_of. cbn [txs set_txs].
  rewrite nth_error_last. cbn [option_map phase].
  unfold Job.step at 1, phase_of, to_phase. cbn [txs set_txs set_inserts].
  rewrite set_phase_last, nth_error_last. cbn [option_map phase listener].
  unfold Job.step at 1, phase_of, to_phase. cbn [txs set_txs].
  rewrite set_phase_last, nth_error_last. cbn [option_map phase listener].
  unfold to_phase. cbn [txs set_txs].
  rewrite set_phase_last. cbn [listener].
  reflexivity.
Qed.

(** Whole batches served serially. *)
Lemma served_run (before : list (list Row)) (s : State) :
  flowing s = true ->
  rows s = [] ->
  0 < batchSize ->
  Forall (fun b => length b = batchSize) before ->
  exists s',
    (forall evs, run s (served (length (txs s)) before ++ evs) = run s' evs)
    /\ flowing s' = true
    /\ rows s' = []
    /\ promise s' = promise s
    /\ table s' = table s ++ concat before
    /\ inserts s' = inserts s ++ before
    /\ totalRowCount s' = totalRowCount s + length (concat before)
    /\ length (txs s') = length (txs s) + length before
    /\ failed_rows_log s' = failed_rows_log s.
Proof.
  intros Hflow Hempty Hpos Hall. revert s Hflow Hempty.
  induction Hall as [|b before Hb Hall IH]; intros s Hflow Hempty.
  - exists s. cbn. rewrite !app_nil_r, !Nat.add_0_r. repeat split; assumption.
  - set (s2 := after_transaction OnData
                 (set_txs (txs s ++ [{| listener := OnData; phase := Finished |}])
                    (set_table (table s ++ b)
                       (set_totalRowCount (totalRowCount s + length b)
                          (set_inserts (inserts s ++ [b]) (set_rows b s)))))).
    destruct (IH s2) as
      (s' & Hrun & Hf & Hr & Hp & Ht & Hi & Hc & Hl & Hg);
      [exact Hflow|reflexivity|].
    exists s'. split.
    + intros evs. cbn [served]. rewrite <- !app_assoc, run_app.
      rewrite fill_run;
        [|exact Hflow|destruct b; [cbn in Hb; lia|discriminate]
         |rewrite Hempty; cbn; lia].
      rewrite Hempty. cbn [app].
      change (length (txs s)) with (length (txs (set_rows b s))) at 1.
      rewrite commits_run. cbn [rows set_rows].
      fold s2.
      replace (S (length (txs s))) with (length (txs s2))
        by (cbn; rewrite length_app; cbn; lia).
      apply Hrun.
    + rewrite Hf, Hr, Hp, Ht, Hi, Hc, Hl, Hg. cbn.
      rewrite !length_app, <- !app_assoc. cbn.
      repeat split; lia.
Qed.

(** X11.  Under serial delivery, when the first refused insert comes
    after the whole batches [before] (a full batch refused at its last
    row, or a shorter one refused at 'end'): the job rejects with the
    number of rows of those batches as its count, the table holds exactly
    them, the sink was handed them and then the refused rows, and the
    log holds the refused rows, nothing else. *)
Theorem first_refusal_under_serial_delivery
    (before : list (list Row)) (failed : list Row) :
  0 < batchSize ->
  Forall (fun b => length b = batchSize) before ->
  0 < length failed ->
  length failed <= batchSize ->
  exists s,
    run init
      (served 0 before ++ map Data failed
       ++ (if length failed =? batchSize then [] else [End])
       ++ refusal (length before)) = Some s
    /\ promise s
       = Some (Rejected (length (concat before)) (stopped_message tableName))
    /\ failed_rows_log s = Json.appended failed
    /\ table s = concat before
    /\ inserts s = before ++ [failed].
Proof.
  intros Hpos Hall Hsome Hfit.
  destruct (served_run before init) as
    (s1 & Hrun & Hf & Hr & Hp & Ht & Hi & Hc & Hl & Hg); auto.
  cbn in Hrun, Hp, Ht, Hi, Hc, Hl, Hg.
  assert (Hne : failed <> []) by (destruct failed; [cbn in Hsome; lia|discriminate]).
  rewrite Hrun, run_app.
  destruct (length failed =? batchSize) eqn:Hfull.
  - apply Nat.eqb_eq in Hfull.
    rewrite fill_run; [|exact Hf|exact Hne|rewrite Hr; cbn; lia].
    rewrite Hr. cbn [app].
    rewrite <- Hl. change (length (txs s1)) with (length (txs (set_rows failed s1))).
    rewrite refusal_run.
    eexists. split; [reflexivity|].
    unfold on_catch, logFailedRows, settle. cbn.
    destruct failed as [|r failed]; [congruence|]. cbn.
    rewrite ?Hp, ?Hg, ?Hc, ?Ht, ?Hi. cbn.
    rewrite ?Hp, ?Hg, ?Hc, ?Ht, ?Hi. repeat split.
  - apply Nat.eqb_neq in Hfull.
    rewrite push_run; [|exact Hf|rewrite Hr; cbn; lia].
    rewrite Hr. cbn [app Job.run Job.step]. cbn [flowing set_rows]. rewrite Hf.
    unfold on_end. cbn [rows set_rows set_flowing].
    replace (0 <? length failed) with true
      by (symmetry; apply Nat.ltb_lt; exact Hsome).
    rewrite <- Hl.
    change (length (txs s1))
      with (length (txs (set_flowing false (set_rows failed s1)))).
    rewrite refusal_run.
    eexists. split; [reflexivity|].
    unfold on_catch, logFailedRows, settle. cbn.
    destruct failed as [|r failed]; [congruence|]. cbn.
    rewrite ?Hp, ?Hg, ?Hc, ?Ht, ?Hi. cbn.
    rewrite ?Hp, ?Hg, ?Hc, ?Ht, ?Hi. repeat split.
Qed.

(** X10.  Under serial delivery with every commit succeeding, for every
    [batchSize >= 1] and every file: the job resolves with the number of
    records, the table holds them in order, and the sink is handed
    [ceil (N / batchSize)] inserts, each of [batchSize] rows except the
    last, which has [N mod batchSize] rows ([batchSize] when that is 0);
    nothing is logged. *)
Theorem serial_delivery_meets_the_batching_rule (records : list Row) :
  0 < batchSize ->
  exists s,
    run init (Job.serial batchSize 0 0 records) = Some s
    /\ promise s = Some (Resolved (length records))
    /\ table s = records
    /\ concat (inserts s) = records
    /\ length (inserts s) = (length records + (batchSize - 1)) / batchSize
    /\ Forall (fun b => length b = batchSize) (removelast (inserts s))
    /\ (0 < length records ->
        length (last (inserts s) [])
        = if length records mod batchSize =? 0 then batchSize
          else length records mod batchSize)
    /\ failed_rows_log s = EmptyString.
Proof. apply JobFacts.serial_job. Qed.

End Serial.

Import Examples Inputs.

Lemma serial_delivery_meets_the_batching_rule_witness :
  exists s,
    run "customers" 2 init (Job.serial 2 0 0 [r1; r2; r3]) = Some s
    /\ promise s = Some (Resolved 3)
    /\ length (inserts s) = 2.
Proof.
  destruct (serial_delivery_meets_the_batching_rule "customers" 2 [r1; r2; r3])
    as (s & Hrun & Hpromise & _ & _ & Hcount & _); [lia|].
  exists s. split; [exact Hrun|]. split; [exact Hpromise|exact Hcount].
Defined.

Lemma first_refusal_under_serial_delivery_witness :
  exists s,
    run "customers" 1 init
      (served 0 [[r1]] ++ map Data [r2]
       ++ (if length [r2] =? 1 then [] else [End])
       ++ refusal (length [[r1]])) = Some s
    /\ promise s = Some (Rejected (length (concat [[r1]]))
                           (stopped_message "customers"))
    /\ failed_rows_log s = Json.appended [r2]
    /\ table s = concat [[r1]]
    /\ inserts s = [[r1]] ++ [[r2]].
Proof.
  apply (first_refusal_under_serial_delivery "customers" 1 [[r1]] [r2]).
  - lia.
  - repeat constructor.
  - cbn. lia.
  - cbn. lia.
Defined.

End SerialFailure.

(* ------------------------------------------------------------------ *)
(** ** The log tells the failed rows *)

Module LogRecovery.

Import Json JsonFacts Reading.
Local Open Scope string_scope.

Lemma read_escape_char (c : ascii) (rest : string) :
  read_char (escape_char c ++ rest) = Some (c, rest).
Proof.
  destruct c as [[] [] [] [] [] [] [] []]; reflexivity.
Qed.

Lemma escape_inj (s1 s2 r1 r2 : string) :
  escape s1 ++ String dquote r1 = escape s2 ++ String dquote r2 ->
  s1 = s2 /\ r1 = r2.
Proof.
  revert s2.
  induction s1 as [|c1 s1 IH]; intros [|c2 s2]; cbn [escape]; intros H.
  - cbn in H. injection H as ->. auto.
  - rewrite append_assoc in H. apply (f_equal read_char) in H.
    rewrite read_escape_char in H. discriminate H.
  - rewrite append_assoc in H. apply (f_equal read_char) in H.
    rewrite read_escape_char in H. discriminate H.
  - rewrite !append_assoc in H. apply (f_equal read_char) in H.
    rewrite !read_escape_char in H. injection H as -> H.
    destruct (IH _ H) as [-> ->]. auto.
Qed.

Lemma quote_inj (s1 s2 r1 r2 : string) :
  quote s1 ++ r1 = quote s2 ++ r2 -> s1 = s2 /\ r1 = r2.
Proof.
  unfold quote. cbn [append]. rewrite !append_assoc. cbn [append].
  intros [= H]. now apply escape_inj.
Qed.

Lemma member_inj (kv1 kv2 : string * string) (r1 r2 : string) :
  member kv1 ++ r1 = member kv2 ++ r2 -> kv1 = kv2 /\ r1 = r2.
Proof.
  destruct kv1 as [k1 v1], kv2 as [k2 v2]. unfold member. cbn [fst snd].
  rewrite !append_assoc. intros H.
  apply quote_inj in H as [-> H]. cbn [append] in H.
  injection H as H. rewrite !append_assoc in H. cbn [append] in H.
  apply escape_inj in H as [-> ->]. auto.
Qed.

Lemma member_head (kv : string * string) (r : string) :
  exists body, member kv ++ r = String dquote body.
Proof. unfold member, quote. cbn [append]. eauto. Qed.

Lemma join_cons (x y : string) (l : list string) :
  join "," (x :: y :: l) = x ++ "," ++ join "," (y :: l).
Proof. reflexivity. Qed.

Lemma members_head (kv : string * string) (row : Row) (r : string) :
  exists body, join "," (map member (kv :: row)) ++ r = String dquote body.
Proof.
  destruct row as [|x row]; cbn [map];
    [cbn [join]|rewrite join_cons, append_assoc]; apply member_head.
Qed.

Lemma members_inj (row1 row2 : Row) (r1 r2 : string) :
  join "," (map member row1) ++ String "}" r1
  = join "," (map member row2) ++ String "}" r2 ->
  row1 = row2 /\ r1 = r2.
Proof.
  revert row2.
  induction row1 as [|kv1 row1 IH]; intros [|kv2 row2] H.
  - cbn in H. injection H as ->. auto.
  - exfalso.
    destruct (members_head kv2 row2 (String "}" r2)) as [b Hb].
    rewrite Hb in H. discriminate H.
  - exfalso.
    destruct (members_head kv1 row1 (String "}" r1)) as [b Hb].
    rewrite Hb in H. discriminate H.
  - cbn [map] in H.
    destruct row1 as [|x1 row1], row2 as [|x2 row2]; cbn [map] in H.
    + cbn [join] in H. apply member_inj in H as [-> H].
      injection H as ->. auto.
    + exfalso. rewrite join_cons in H.
      change (join "," [member kv1]) with (member kv1) in H.
      rewrite append_assoc in H. apply member_inj in H as [_ H].
      discriminate H.
    + exfalso. rewrite join_cons in H.
      change (join "," [member kv2]) with (member kv2) in H.
      rewrite append_assoc in H. apply member_inj in H as [_ H].
      discriminate H.
    + rewrite !join_cons, !append_assoc in H.
      apply member_inj in H as [-> H].
      cbn [append] in H. injection H as H.
      destruct (IH (x2 :: row2) H) as [-> ->]. auto.
Qed.

(** [JSON.stringify] tells rows apart. *)
Lemma stringify_inj (row1 row2 : Row) :
  stringify row1 = stringify row2 -> row1 = row2.
Proof.
  unfold stringify. cbn [append]. intros [= H].
  now apply members_inj in H as [-> _].
Qed.

Lemma append_cancel (a x y : string) : a ++ x = a ++ y -> x = y.
Proof.
  induction a as [|c a IH]; cbn; [auto|].
  intros [= H]. now apply IH.
Qed.

Lemma map_stringify_inj (rows1 rows2 : list Row) :
  map stringify rows1 = map stringify rows2 -> rows1 = rows2.
Proof.
  revert rows2.
  induction rows1 as [|r rows1 IH]; intros [|r2 rows2]; cbn;
    try discriminate; [reflexivity|].
  intros [= Hr Hrest]. apply members_inj in Hr as [-> _].
  now rewrite (IH _ Hrest).
Qed.

(** The text appended for a batch tells which batch it was. *)
Lemma appended_inj (r1 r2 : Row) (rows1 rows2 : list Row) :
  appended (r1 :: rows1) = appended (r2 :: rows2) ->
  r1 :: rows1 = r2 :: rows2.
Proof.
  intros H. apply (f_equal lines) in H.
  rewrite !lines_appended in H. now apply map_stringify_inj.
Qed.

Lemma appended_not_empty (r : Row) (rows : list Row) (a : string) :
  a ++ appended (r :: rows) <> a.
Proof.
  intros H. rewrite <- (append_empty_r a) in H at 2.
  apply append_cancel, (f_equal lines) in H.
  rewrite lines_appended in H. discriminate H.
Qed.

(** X14.  What [logFailedRows] leaves in the log determines the rows it
    was given: two different batches, cell for cell and header for
    header, never leave the same log, so the failed rows can be told from
    the file. *)
Theorem log_tells_the_failed_rows
    (failed1 failed2 : list Row) (s s1 s2 : Job.State) :
  Job.logFailedRows true failed1 s = Some s1 ->
  Job.logFailedRows true failed2 s = Some s2 ->
  Job.failed_rows_log s1 = Job.failed_rows_log s2 ->
  failed1 = failed2.
Proof.
  destruct failed1 as [|r1 rows1], failed2 as [|r2 rows2]; cbn;
    intros [= <-] [= <-]; cbn; intros H.
  - reflexivity.
  - symmetry in H. now apply appended_not_empty in H.
  - now apply appended_not_empty in H.
  - apply append_cancel in H. now apply appended_inj.
Qed.

Lemma log_tells_the_failed_rows_witness :
  [Examples.r1; Examples.r2] = [Examples.r1; Examples.r2].
Proof.
  apply (log_tells_the_failed_rows _ _ Job.init
           (Job.set_failed_rows_log
              (Json.appended [Examples.r1; Examples.r2]) Job.init)
           (Job.set_failed_rows_log
              (Json.appended [Examples.r1; Examples.r2]) Job.init));
    reflexivity.
Defined.

End LogRecovery.

(* ------------------------------------------------------------------ *)
(** ** When a job settles, and what a run without failure leaves *)

Module JobSettles.

Import Job JobCounts JobInvariants.

Section Runs.

Variable tableName : string.
Variable batchSize : nat.

Local Abbreviation step := (Job.step tableName batchSize).
Local Abbreviation run := (Job.run tableName batchSize).

Lemma awaiting_end_same (l : list Tx) (t : nat) (p q : Phase) (lsn : Listener) :
  nth_error l t = Some {| listener := lsn; phase := q |} ->
  pending p = pending q ->
  length (filter awaiting_end (set_phase t p l))
  = length (filter awaiting_end l).
Proof.
  intros Hnth Hpq. apply (filter_set_phase_same).
  intros x Hx. rewrite Hnth in Hx. injection Hx as <-.
  unfold awaiting_end, by_data. cbn. now rewrite Hpq.
Qed.

Lemma awaiting_end_by_data (l : list Tx) (t : nat) (p q : Phase) :
  nth_error l t = Some {| listener := OnData; phase := q |} ->
  length (filter awaiting_end (set_phase t p l))
  = length (filter awaiting_end l).
Proof.
  intros Hnth. apply (filter_set_phase_same).
  intros x Hx. rewrite Hnth in Hx. now injection Hx as <-.
Qed.

Lemma settle_settles (v : Settlement) (s : State) : promise (settle v s) <> None.
Proof. unfold settle. destruct (promise s) eqn:H; cbn; congruence. Qed.

Lemma step_accounted (s s' : State) (e : Event) :
  step s e = Some s' -> accounted s -> accounted s'.
Proof.
  unfold accounted, end_pending.
  intros H Hs. turn H.
  - unfold on_data. destruct (length _ =? batchSize); cbn; auto.
  - unfold on_end. cbn [rows set_flowing].
    destruct (0 <? length (rows s)).
    + cbn. rewrite filter_app, length_app. cbn. intros _. right. left. lia.
    + intros Hn. now apply settle_settles in Hn.
  - unfold on_error. intros Hn. now apply settle_settles in Hn.
  - destruct (tx_has_listener _ _ _ Hphase) as [l Hl]. cbn.
    rewrite (awaiting_end_same _ _ _ _ _
               (tx_at _ _ _ _ Hphase Hl)); auto.
  - destruct (tx_has_listener _ _ _ Hphase) as [l Hl]. cbn.
    rewrite (awaiting_end_same _ _ _ _ _
               (tx_at _ _ _ _ Hphase Hl)); auto.
  - destruct (tx_has_listener _ _ _ Hphase) as [l Hl]. cbn.
    rewrite (awaiting_end_same _ _ _ _ _
               (tx_at _ _ _ _ Hphase Hl)); auto.
  - destruct (tx_has_listener _ _ _ Hphase) as [l Hl]. cbn.
    rewrite (awaiting_end_same _ _ _ _ _
               (tx_at _ _ _ _ Hphase Hl)); auto.
  - pose proof (tx_at _ _ _ _ Hphase Hlistener) as Hnth.
    destruct l; cbn [after_transaction].
    + cbn. rewrite (awaiting_end_by_data _ _ _ _ Hnth). auto.
    + intros Hn. now apply settle_settles in Hn.
  - cbn.
    rewrite (awaiting_end_same _ _ _ _ _
               (tx_at _ _ _ _ Hphase Hlistener)); auto.
  - unfold on_catch, logFailedRows. cbn [rows to_phase set_txs].
    destruct (rows s) as [|r rs].
    + intros Hn. now apply settle_settles in Hn.
    + destruct ok.
      * intros Hn. now apply settle_settles in Hn.
      * cbn. intros _. right. right. lia.
Qed.

Lemma reachable_accounted (s : State) :
  reachable tableName batchSize s -> accounted s.
Proof.
  intros [evs Hrun]. revert Hrun.
  assert (H0 : accounted init) by (intros _; now left).
  revert H0. generalize init as a. revert s.
  induction evs as [|e evs IH]; intros s a Ha; cbn [Job.run].
  - now intros [= <-].
  - destruct (step a e) as [a1|] eqn:H1; [|discriminate].
    apply IH. eapply step_accounted; eassumption.
Qed.

Lemma nothing_outstanding (l : list Tx) :
  existsb (fun x => pending (phase x)) l = false ->
  length (filter awaiting_end l) = 0.
Proof.
  induction l as [|x l IH]; cbn; [reflexivity|].
  intros H. apply orb_false_iff in H as [Hx Hl].
  unfold awaiting_end at 1. rewrite Hx, andb_false_r. now apply IH.
Qed.

(** X12.  Once the parser has stopped and every transaction has been
    answered and handled, the promise of the job is settled, unless a
    listener threw out of its [catch] block: a throwing [logFailedRows]
    is the only way a finished job leaves its caller waiting. *)
Theorem settled_unless_a_listener_threw (s : State) :
  reachable tableName batchSize s ->
  flowing s = false ->
  outstanding s = false ->
  unhandled s = 0 ->
  exists v, promise s = Some v.
Proof.
  intros Hreach Hstop Hnone Hclean.
  pose proof (reachable_accounted _ Hreach) as Hacc.
  destruct (promise s) as [v|] eqn:Hp; [now exists v|].
  destruct (Hacc Hp) as [H|[H|H]].
  - congruence.
  - unfold end_pending in H. unfold outstanding in Hnone.
    rewrite (nothing_outstanding _ Hnone) in H. lia.
  - lia.
Qed.

(** *** Runs without a failure *)

Ltac quiet :=
  cbn; split; [reflexivity|];
  split; [reflexivity|first [left; congruence|right; eexists; reflexivity]].

Lemma step_quiet (s s' : State) (e : Event) :
  step s e = Some s' ->
  failure_free e = true ->
  failed_rows_log s' = failed_rows_log s
  /\ unhandled s' = unhandled s
  /\ (promise s' = promise s \/ exists n, promise s' = Some (Resolved n)).
Proof.
  intros H Hfree. turn H; try discriminate Hfree.
  - unfold on_data. destruct (length _ =? batchSize); quiet.
  - unfold on_end, settle. cbn [rows set_flowing].
    destruct (0 <? length (rows s)); [quiet|].
    cbn. destruct (promise s) eqn:Hp; quiet.
  - quiet.
  - quiet.
  - destruct l; cbn [after_transaction]; [quiet|].
    unfold settle. cbn. destruct (promise s) eqn:Hp; quiet.
Qed.

(** X13.  Turns that report no failure write nothing to the log, make
    no listener throw, and leave the promise as it was or resolve it:
    without a failure a job is never rejected. *)
Theorem quiet_without_failure (evs : list Event) (s s' : State) :
  run s evs = Some s' ->
  forallb failure_free evs = true ->
  failed_rows_log s' = failed_rows_log s
  /\ unhandled s' = unhandled s
  /\ (promise s' = promise s \/ exists n, promise s' = Some (Resolved n)).
Proof.
  revert s.
  induction evs as [|e evs IH]; intros s; cbn [Job.run forallb].
  - intros [= <-] _. auto.
  - destruct (step s e) as [s1|] eqn:H1; [|discriminate].
    intros Hrun Hfree. apply andb_true_iff in Hfree as [He Hevs].
    destruct (step_quiet _ _ _ H1 He) as (Hl1 & Hu1 & Hp1).
    destruct (IH _ Hrun Hevs) as (Hl & Hu & Hp).
    split; [congruence|]. split; [congruence|].
    destruct Hp as [Hp|Hp]; [|now right].
    destruct Hp1 as [Hp1|[n Hp1]]; [left|right; exists n]; congruence.
Qed.

End Runs.

Import Examples Inputs.

Lemma settled_unless_a_listener_threw_witness :
  exists v, promise (after 1 (committed_once ++ [End])) = Some v.
Proof.
  apply (settled_unless_a_listener_threw "customers" 1).
  - exists (committed_once ++ [End]). vm_compute. reflexivity.
  - vm_compute. reflexivity.
  - vm_compute. reflexivity.
  - vm_compute. reflexivity.
Defined.

Lemma quiet_without_failure_witness :
  failed_rows_log (after 1 (committed_once ++ [End])) = failed_rows_log init
  /\ unhandled (after 1 (committed_once ++ [End])) = unhandled init
  /\ (promise (after 1 (committed_once ++ [End])) = promise init
      \/ exists n, promise (after 1 (committed_once ++ [End]))
                   = Some (Resolved n)).
Proof.
  apply (quiet_without_failure "customers" 1 (committed_once ++ [End]));
    vm_compute; reflexivity.
Defined.

End JobSettles.

(* ------------------------------------------------------------------ *)
(** ** Rows reach the sink as the file has them *)

Module FileOrder.

Import Job JobCounts JobInvariants.

Lemma run_of_later (b h more : list Row) :
  run_of b h -> run_of b (h ++ more).
Proof.
  intros (before & after & ->). exists before, (after ++ more).
  now rewrite <- !app_assoc.
Qed.

Lemma run_of_end (before b : list Row) : run_of b (before ++ b).
Proof. exists before, []. now rewrite app_nil_r. Qed.

Lemma delivered_app (a b : list Event) :
  delivered (a ++ b) = delivered a ++ delivered b.
Proof.
  induction a as [|e a IH]; [reflexivity|].
  destruct e; cbn [app delivered]; now rewrite ?IH.
Qed.

Section Runs.

Variable tableName : string.
Variable batchSize : nat.

Local Abbreviation step := (Job.step tableName batchSize).
Local Abbreviation run := (Job.run tableName batchSize).

Lemma settle_rows (v : Settlement) (s : State) : rows (settle v s) = rows s.
Proof. unfold settle. now destruct (promise s). Qed.

(** One turn: the delivered row, if any, is pushed at the end of [rows];
    an insert takes [rows] as it is; [rows] is otherwise left alone or
    emptied. *)
Lemma step_in_file_order (h : list Row) (s s' : State) (e : Event) :
  step s e = Some s' ->
  in_file_order h s -> in_file_order (h ++ delivered [e]) s'.
Proof.
  intros H [[before Hrows] Hins]. turn H; cbn [delivered];
    rewrite ?app_nil_r.
  - (* 'data' *)
    assert (Hnew : rows (on_data batchSize row s) = rows s ++ [row])
      by (unfold on_data; now destruct (length _ =? batchSize)).
    assert (Hsame : inserts (on_data batchSize row s) = inserts s)
      by (unfold on_data; now destruct (length _ =? batchSize)).
    split.
    + exists before. now rewrite Hnew, Hrows, app_assoc.
    + rewrite Hsame. eapply Forall_impl; [|exact Hins].
      intros b. apply run_of_later.
  - (* 'end' *)
    assert (Hnew : rows (on_end (set_flowing false s)) = rows s)
      by (unfold on_end; destruct (0 <? length _);
          [reflexivity|now rewrite settle_rows]).
    assert (Hsame : inserts (on_end (set_flowing false s)) = inserts s)
      by (unfold on_end; destruct (0 <? length _);
          [reflexivity|now rewrite JobFacts.settle_inserts]).
    split; [exists before; now rewrite Hnew|now rewrite Hsame].
  - (* 'error' *)
    unfold on_error.
    split; [exists before; now rewrite settle_rows
           |now rewrite JobFacts.settle_inserts].
  - (* BEGIN answered: the insert is sent with [rows] as it is *)
    split; [exists before; exact Hrows|].
    cbn. apply Forall_app. split; [exact Hins|].
    constructor; [|constructor]. rewrite Hrows. apply run_of_end.
  - split; [exists before; exact Hrows|exact Hins].
  - split; [exists before; exact Hrows|exact Hins].
  - split; [exists before; exact Hrows|exact Hins].
  - (* COMMIT answered *)
    destruct l; cbn [after_transaction].
    + split; [exists h; cbn; now rewrite app_nil_r|exact Hins].
    + split; [exists before; now rewrite settle_rows
             |now rewrite JobFacts.settle_inserts].
  - split; [exists before; exact Hrows|exact Hins].
  - (* the [catch] block *)
    split.
    + exists before. now rewrite on_catch_rows.
    + now rewrite JobFacts.on_catch_inserts.
Qed.

Lemma run_in_file_order (evs : list Event) (h : list Row) (s s' : State) :
  run s evs = Some s' ->
  in_file_order h s -> in_file_order (h ++ delivered evs) s'.
Proof.
  revert h s. induction evs as [|e evs IH]; intros h s; cbn [Job.run].
  - intros [= <-]. cbn [delivered]. now rewrite app_nil_r.
  - destruct (step s e) as [s1|] eqn:H1; [|discriminate].
    intros Hrun Hinv.
    change (e :: evs) with ([e] ++ evs).
    rewrite delivered_app, app_assoc.
    apply (IH _ s1 Hrun). now apply step_in_file_order with (s := s).
Qed.

(** X3.  Rows reach the sink as the file has them.  After any turns of
    a job, [rows] is the end of the sequence of rows the parser has
    delivered; every insert the sink was handed is a run of consecutive
    delivered rows, in the order of delivery; and the table is made of
    such runs.  No row is made up or changed, and no insert reorders
    rows or skips a row between two it holds. *)
Theorem rows_reach_the_sink_in_file_order (evs : list Event) (s : State) :
  run init evs = Some s ->
  (exists before, delivered evs = before ++ rows s)
  /\ Forall (fun b => run_of b (delivered evs)) (inserts s)
  /\ exists applied,
       table s = concat applied
       /\ Forall (fun b => run_of b (delivered evs)) applied.
Proof.
  intros Hrun.
  destruct (run_in_file_order evs [] init s Hrun) as [Hrows Hins].
  { split; [now exists []|constructor]. }
  cbn [app] in Hrows, Hins.
  split; [exact Hrows|]. split; [exact Hins|].
  destruct (JobFacts.table_holds_whole_inserts tableName batchSize s)
    as (applied & Htable & Hincl); [now exists evs|].
  exists applied. split; [exact Htable|].
  apply Forall_forall. intros b Hb.
  apply (proj1 (Forall_forall _ _) Hins), Hincl, Hb.
Qed.

End Runs.

Import Examples.

Lemma rows_reach_the_sink_in_file_order_witness :
  (exists before,
      delivered burst_of_two
      = before ++ rows (Inputs.after 1 burst_of_two))
  /\ Forall (fun b => run_of b (delivered burst_of_two))
       (inserts (Inputs.after 1 burst_of_two))
  /\ exists applied,
       table (Inputs.after 1 burst_of_two) = concat applied
       /\ Forall (fun b => run_of b (delivered burst_of_two)) applied.
Proof.
  apply (rows_reach_the_sink_in_file_order "customers" 1 burst_of_two).
  vm_compute. reflexivity.
Defined.

End FileOrder.

(* ------------------------------------------------------------------ *)
(** ** processDataDump: what it throws, when it stops, what it closes *)

Module OrchestratorMore.

Import Orchestrator OrchestratorDefs OrchestratorFacts.
Local Open Scope string_scope.

Lemma keeps_ret {A} (a : A) : keeps_job_errors (ret a).
Proof. intros tr e. discriminate. Qed.

Lemma keeps_emit (a : Action) : keeps_job_errors (emit a).
Proof. intros tr e. discriminate. Qed.

Lemma keeps_bind {A B} (m : M A) (k : A -> M B) :
  keeps_job_errors m -> (forall a, keeps_job_errors (k a)) ->
  keeps_job_errors (bind m k).
Proof.
  intros Hm Hk tr e. unfold bind.
  specialize (Hm tr).
  destruct (m tr) as [[a|e'| |c] tr']; cbn in *; try discriminate.
  - apply Hk.
  - intros [= <-]. now apply Hm.
Qed.

Lemma keeps_call (name : string) (failure : option string) :
  keeps_job_errors (call name failure).
Proof.
  apply keeps_bind; [apply keeps_emit|].
  intros _ tr e. destruct failure; cbn; [|discriminate].
  intros [= <-]. eauto.
Qed.

Lemma keeps_piped (name : string) (stream failure : option string) :
  keeps_job_errors (piped name stream failure).
Proof.
  apply keeps_bind; [apply keeps_emit|]. intros _.
  apply keeps_bind; [intros tr e; now destruct stream|].
  intros _ tr e. destruct failure; cbn; [|discriminate].
  intros [= <-]. eauto.
Qed.

(** A [catch] block stops whatever its [try] block throws. *)
Lemma keeps_try_catch {A} (body : M A) (handler : Thrown -> M A) :
  (forall e, keeps_job_errors (handler e)) ->
  keeps_job_errors (try_catch body handler).
Proof.
  intros Hh tr e. unfold try_catch.
  destruct (body tr) as [[a|e'| |c] tr']; cbn; try discriminate.
  apply Hh.
Qed.

Lemma keeps_try_finally {A} (body : M A) (fin : M unit) :
  keeps_job_errors body -> keeps_job_errors fin ->
  keeps_job_errors (try_finally body fin).
Proof.
  intros Hb Hf tr e. unfold try_finally.
  specialize (Hb tr).
  destruct (body tr) as [[a|e'| |c] tr']; cbn in *; try discriminate.
  - specialize (Hf tr').
    destruct (fin tr') as [[[]|e''| |c'] tr'']; cbn in *; try discriminate.
    intros [= <-]. now apply Hf.
  - specialize (Hf tr').
    destruct (fin tr') as [[[]|e''| |c'] tr'']; cbn in *; try discriminate.
    + intros [= <-]. now apply Hb.
    + intros [= <-]. now apply Hf.
Qed.

Ltac prove_keeps :=
  repeat lazymatch goal with
    | |- keeps_job_errors (bind _ _) => apply keeps_bind; [|intros ?]
    | |- keeps_job_errors (try_finally _ _) => apply keeps_try_finally
    | |- keeps_job_errors (try_catch _ _) => apply keeps_try_catch; intros ?
    | |- keeps_job_errors (log _) => apply keeps_emit
    | |- keeps_job_errors (emit _) => apply keeps_emit
    | |- keeps_job_errors (ret _) => apply keeps_ret
    | |- keeps_job_errors (call _ _) => apply keeps_call
    | |- keeps_job_errors (createTables _) => unfold createTables
    | |- keeps_job_errors (downloadFile _) => apply keeps_piped
    | |- keeps_job_errors (extractTar _) => apply keeps_piped
    end.


(** X16.  When the promise of the customers job is never settled,
    [processDataDump] never returns: the organizations job is not
    started, the [finally] block is not entered and the connection is not
    destroyed. *)
Theorem a_pending_job_blocks_the_run (w : World) :
  setup_succeeds w ->
  settlement "customers" (customers_events w) = None ->
  fst (processDataDump w []) = Hangs
  /\ attempted (snd (processDataDump w [])) = ["customers"]
  /\ ~ In (Call "db.destroy") (snd (processDataDump w [])).
Proof.
  destruct w as [m1 m2 m3 dl ex fk sy cc co ce oe fk' sy' de ds es cf ofile].
  unfold setup_succeeds. dump.
  intros (-> & -> & -> & -> & -> & -> & -> & -> & -> & -> & ->) Hpending.
  rewrite Hpending.
  destruct cf as [e|]; [|destruct (listener_threw "customers" ce)];
    (split; [reflexivity|]); (split; [reflexivity|]); not_there.
Qed.


(** X18.  Once the calls before the [try] block have succeeded, the
    [finally] block is entered whenever the [try] block ends, by a return
    or by a throw: [PRAGMA foreign_keys = ON] is issued even when a PRAGMA
    or a [createTable] failed or a job was rejected. *)
Theorem finally_block_is_entered (w : World) :
  preparation_succeeds w ->
  fst (processDataDump w []) <> Hangs ->
  In (Call "PRAGMA foreign_keys = ON") (snd (processDataDump w [])).
Proof.
  destruct w as [m1 m2 m3 dl ex fk sy cc co ce oe fk' sy' de ds es cf ofile].
  unfold preparation_succeeds.
  cbn [mkdir_tmp mkdir_extracted mkdir_out download extract].
  intros (-> & -> & -> & -> & ->) Hends.
  destruct ds as [e|]; [now destruct Hends|].
  destruct es as [e|]; [now destruct Hends|].
  destruct fk as [e|]; [finally_calls fk' sy' de; dump; there|].
  destruct sy as [e|]; [finally_calls fk' sy' de; dump; there|].
  destruct cc as [e|]; [finally_calls fk' sy' de; dump; there|].
  destruct co as [e|]; [finally_calls fk' sy' de; dump; there|].
  dump.
  jobs Hends cf ce ofile oe; finally_calls fk' sy' de; dump; there.
Qed.

(** X19.  When [PRAGMA foreign_keys = ON] fails in the [finally] block,
    its error is what [processDataDump] throws, replacing an error of the
    [try] block, and [db.destroy] is never called. *)
Theorem failed_pragma_leaves_the_connection_open (w : World) (e : string) :
  preparation_succeeds w ->
  fst (processDataDump w []) <> Hangs ->
  foreign_keys_on w = Some e ->
  fst (processDataDump w []) = Throws (OtherError e)
  /\ ~ In (Call "db.destroy") (snd (processDataDump w [])).
Proof.
  destruct w as [m1 m2 m3 dl ex fk sy cc co ce oe fk' sy' de ds es cf ofile].
  unfold preparation_succeeds.
  cbn [mkdir_tmp mkdir_extracted mkdir_out download extract foreign_keys_on].
  intros (-> & -> & -> & -> & ->) Hends ->.
  destruct ds as [e0|]; [now destruct Hends|].
  destruct es as [e0|]; [now destruct Hends|].
  destruct fk as [e0|]; [dump; split; [reflexivity|not_there]|].
  destruct sy as [e0|]; [dump; split; [reflexivity|not_there]|].
  destruct cc as [e0|]; [dump; split; [reflexivity|not_there]|].
  destruct co as [e0|]; [dump; split; [reflexivity|not_there]|].
  dump.
  jobs Hends cf ce ofile oe; dump; (split; [reflexivity|not_there]).
Qed.

Import Examples Inputs.


Lemma a_pending_job_blocks_the_run_witness :
  fst (processDataDump log_unwritable_world []) = Hangs
  /\ attempted (snd (processDataDump log_unwritable_world [])) = ["customers"]
  /\ ~ In (Call "db.destroy") (snd (processDataDump log_unwritable_world [])).
Proof.
  apply (a_pending_job_blocks_the_run log_unwritable_world).
  - repeat split.
  - vm_compute. reflexivity.
Defined.


Lemma finally_block_is_entered_witness :
  In (Call "PRAGMA foreign_keys = ON")
    (snd (processDataDump customers_refused [])).
Proof.
  apply (finally_block_is_entered customers_refused).
  - repeat split.
  - vm_compute. discriminate.
Defined.

Lemma failed_pragma_leaves_the_connection_open_witness :
  fst (processDataDump pragma_fails [])
  = Throws (OtherError "database is locked")
  /\ ~ In (Call "db.destroy") (snd (processDataDump pragma_fails [])).
Proof.
  apply (failed_pragma_leaves_the_connection_open pragma_fails).
  - repeat split.
  - vm_compute. discriminate.
  - reflexivity.
Defined.

End OrchestratorMore.
